(** * Speakit: playback controller, tokenizer, guest storage and upload guard

    A shallow embedding of the client code of the Speakit reader:

    - [src/components/TTSReader.tsx]: the word tokenizer, the play / pause /
      stop handlers, the per-utterance completion callback and the derived
      progress value;
    - the [useGuestStorage] hook: [addToHistory] and [saveBookmark];
    - [src/components/ContentInput.tsx]: [handleFileUpload].

    JavaScript strings are sequences of UTF-16 code units, React state is
    threaded explicitly, and the values a handler closes over (the constants
    of the render in which the handler was created) are kept apart from the
    state the setters write to. *)

From Stdlib Require Import ZArith NArith List String Ascii Bool Lia.
From Stdlib Require Import Floats.SpecFloat.
From stdpp Require Import base list strings.
Import ListNotations.

Set Default Proof Using "Type".

(* ===================================================================== *)
(** ** JavaScript strings *)
(* ===================================================================== *)

Module JS.

(** A JavaScript string: its UTF-16 code units. *)
Definition jsstring := list N.

(** Embedding of an ASCII literal. *)
Definition lit (s : string) : jsstring :=
  map N_of_ascii (list_ascii_of_string s).

(** The character class [\s] of ECMAScript regular expressions:
    WhiteSpace (TAB, VT, FF, SP, NBSP, ZWNBSP and the category Zs) together
    with LineTerminator (LF, CR, LS, PS). *)
Definition is_ws (c : N) : bool :=
  ((c =? 0x09) || (c =? 0x0A) || (c =? 0x0B) || (c =? 0x0C) || (c =? 0x0D)
   || (c =? 0x20) || (c =? 0xA0) || (c =? 0x1680)
   || ((0x2000 <=? c) && (c <=? 0x200A))
   || (c =? 0x2028) || (c =? 0x2029) || (c =? 0x202F) || (c =? 0x205F)
   || (c =? 0x3000) || (c =? 0xFEFF))%N.

Definition SPACE : N := 0x20%N.

(** [s.split(/\s+/)].  The scan keeps the piece collected since the end of
    the last separator (the substring from [p] to [q] of the specification
    of [split]); [in_sep] tells whether the previous code unit belonged to
    the separator being matched, so that a greedy [\s+] covers a whole run.
    A separator at either end of the string leaves an empty piece there,
    and the empty string splits into one empty piece. *)
Fixpoint split_go (in_sep : bool) (piece : jsstring) (s : jsstring)
  : list jsstring :=
  match s with
  | [] => [piece]
  | c :: r =>
      if is_ws c then
        if in_sep then split_go true piece r
        else piece :: split_go true [] r
      else split_go false (piece ++ [c]) r
  end.

Definition split_ws (s : jsstring) : list jsstring := split_go false [] s.

(** [a.join(" ")]. *)
Fixpoint join_space (a : list jsstring) : jsstring :=
  match a with
  | [] => []
  | [w] => w
  | w :: rest => w ++ SPACE :: join_space rest
  end.

End JS.

(* ===================================================================== *)
(** ** Tokenizer ([TTSReader.tsx], line 31) *)
(* ===================================================================== *)

Module Tokenizer.
Import JS.

(** [word => word.length > 0] *)
Definition nonempty (word : jsstring) : bool := (0 <? length word)%nat.

(** [const words = content.split(/\s+/).filter(word => word.length > 0)] *)
Definition words (content : jsstring) : list jsstring :=
  List.filter nonempty (split_ws content).

Definition ws_free (w : jsstring) : Prop :=
  Forall (fun c => is_ws c = false) w.

(** A speakable unit: non-empty and free of whitespace. *)
Definition unit_ok (w : jsstring) : Prop := w <> [] /\ ws_free w.

(** A run of whitespace, possibly empty. *)
Definition blank (s : jsstring) : Prop := forallb is_ws s = true.

(** After the words of the contract: the ordered sequence of non-empty
    substrings obtained by splitting on one-or-more whitespace characters.
    A blank text has no unit.  Otherwise the text is a blank lead, then a
    unit, and then either its end or a whitespace character followed by a
    text that is split in the same way, so that what stands between two
    units, and what may stand before the first and after the last, is
    whitespace and nothing else. *)
Inductive spec_units : jsstring -> list jsstring -> Prop :=
| spec_units_blank s :
    blank s -> spec_units s []
| spec_units_last lead w :
    blank lead -> unit_ok w -> spec_units (lead ++ w) [w]
| spec_units_more lead w c s l :
    blank lead -> unit_ok w -> is_ws c = true -> spec_units s l ->
    spec_units (lead ++ w ++ c :: s) (w :: l).

End Tokenizer.

(* ===================================================================== *)
(** ** Playback controller ([TTSReader.tsx], lines 20-119) *)
(* ===================================================================== *)

Module Player.
Import JS.

(** The constants of one render of [TTSReader] that the handlers created
    in that render close over.  [const [isPlaying, setIsPlaying] =
    useState(false)] binds [isPlaying] once per render: a setter call
    changes the state of the next render, never this constant. *)
Record Render := {
  r_isPlaying : bool;
  r_currentWordIndex : nat
}.

(** A [SpeechSynthesisUtterance] built by [speakWord].  Its [onend]
    callback is a closure over the parameter [index] and over the render
    whose [speakWord] created it; no other callback is installed. *)
Record Utterance := {
  u_text : jsstring;
  u_index : nat;
  u_render : Render
}.

(** React state of the component, the queue of [window.speechSynthesis],
    the ref cell, and the trace of the calls to [speak]. *)
Record State := {
  isPlaying : bool;
  currentWordIndex : nat;
  synthQueue : list Utterance;
  utteranceRef : option Utterance;
  speakLog : list Utterance
}.

Definition init : State :=
  {| isPlaying := false; currentWordIndex := 0; synthQueue := [];
     utteranceRef := None; speakLog := [] |}.

Definition setIsPlaying (b : bool) (st : State) : State :=
  {| isPlaying := b; currentWordIndex := currentWordIndex st;
     synthQueue := synthQueue st; utteranceRef := utteranceRef st;
     speakLog := speakLog st |}.

Definition setCurrentWordIndex (i : nat) (st : State) : State :=
  {| isPlaying := isPlaying st; currentWordIndex := i;
     synthQueue := synthQueue st; utteranceRef := utteranceRef st;
     speakLog := speakLog st |}.

Definition setQueue (q : list Utterance) (st : State) : State :=
  {| isPlaying := isPlaying st; currentWordIndex := currentWordIndex st;
     synthQueue := q; utteranceRef := utteranceRef st;
     speakLog := speakLog st |}.

(** [window.speechSynthesis.speak(utterance)]: the utterance joins the
    queue of the engine. *)
Definition speak (u : Utterance) (st : State) : State :=
  {| isPlaying := isPlaying st; currentWordIndex := currentWordIndex st;
     synthQueue := synthQueue st ++ [u]; utteranceRef := utteranceRef st;
     speakLog := speakLog st ++ [u] |}.

(** [window.speechSynthesis.cancel()]: every utterance leaves the queue. *)
Definition cancel (st : State) : State := setQueue [] st.

(** [utteranceRef.current = utterance] *)
Definition setUtteranceRef (u : Utterance) (st : State) : State :=
  {| isPlaying := isPlaying st; currentWordIndex := currentWordIndex st;
     synthQueue := synthQueue st; utteranceRef := Some u;
     speakLog := speakLog st |}.

Section Controller.

(** [words], fixed by the [content] prop of the session. *)
Variable words : list jsstring.

(** [speakWord] as created in render [r]. *)
Definition speakWord (r : Render) (index : nat) (st : State) : State :=
  if (length words <=? index)%nat then setIsPlaying false st
  else
    let word := nth index words [] in
    let utterance :=
      {| u_text := word; u_index := index; u_render := r |} in
    setUtteranceRef utterance (speak utterance st).

(** [utterance.onend], run when the engine reports that the utterance
    has been spoken.  [isPlaying] is the constant of the render that
    built the utterance, and the recursive call is to the [speakWord]
    of that same render. *)
Definition onend (u : Utterance) (st : State) : State :=
  let index := u_index u in
  let st := setCurrentWordIndex (index + 1) st in
  if r_isPlaying (u_render u) && (index + 1 <? length words)%nat
  then speakWord (u_render u) (index + 1) st
  else setIsPlaying false st.

Definition handlePlay (r : Render) (st : State) : State :=
  speakWord r (r_currentWordIndex r) (setIsPlaying true st).

Definition handlePause (st : State) : State :=
  cancel (setIsPlaying false st).

Definition handleStop (st : State) : State :=
  setCurrentWordIndex 0 (cancel (setIsPlaying false st)).

(** The render committed for a state; the buttons on screen carry the
    handlers of this render. *)
Definition render (st : State) : Render :=
  {| r_isPlaying := isPlaying st;
     r_currentWordIndex := currentWordIndex st |}.

Definition play (st : State) : State := handlePlay (render st) st.
Definition pause (st : State) : State := handlePause st.
Definition stop (st : State) : State := handleStop st.

(** The engine finishes the utterance at the head of its queue and
    dispatches [end] to it. *)
Definition utterance_end (st : State) : State :=
  match synthQueue st with
  | [] => st
  | u :: q => onend u (setQueue q st)
  end.

(** The engine fails on the utterance at the head of its queue and
    dispatches [error] to it.  [speakWord] installs no [onerror]
    callback, so nothing of the component runs. *)
Definition utterance_error (st : State) : State :=
  match synthQueue st with
  | [] => st
  | u :: q => setQueue q st
  end.

Inductive Event := Play | Pause | Stop | End | Error.

(** One event.  The Play button is rendered only while [isPlaying] is
    false and the Pause button only while it is true; a click on a
    button that is not on screen cannot happen. *)
Definition step (st : State) (e : Event) : State :=
  match e with
  | Play => if isPlaying st then st else play st
  | Pause => if isPlaying st then pause st else st
  | Stop => stop st
  | End => utterance_end st
  | Error => utterance_error st
  end.

Definition run (es : list Event) (st : State) : State :=
  fold_left step es st.

(** The events that come from the speech engine, not from a button. *)
Definition from_engine (e : Event) : bool :=
  match e with
  | End | Error => true
  | Play | Pause | Stop => false
  end.

(** The session has run to the end of the text. *)
Definition Finished (st : State) : Prop :=
  isPlaying st = false /\ currentWordIndex st = length words.

End Controller.


(** Every utterance queued or ever spoken was built in a render in which
    [isPlaying] was false. *)
Definition built_while_idle (st : State) : Prop :=
  Forall (fun u => r_isPlaying (u_render u) = false) (synthQueue st)
  /\ Forall (fun u => r_isPlaying (u_render u) = false) (speakLog st).

(** [const progress = (currentWordIndex / words.length) * 100], in
    binary64 arithmetic.  Indices and lengths are integers below 2^32,
    held exactly as mantissa with exponent 0. *)
Definition number := spec_float.

Definition number_of_nat (n : nat) : number :=
  match n with
  | O => S754_zero false
  | S _ => S754_finite false (Pos.of_nat n) 0
  end.

Definition div : number -> number -> number := SFdiv 53 1024.
Definition mul : number -> number -> number := SFmul 53 1024.

Definition progress (currentWordIndex : nat) (length_words : nat) : number :=
  mul (div (number_of_nat currentWordIndex) (number_of_nat length_words))
      (number_of_nat 100).

(** The numbers 1 and 100 in normal form: 2^52 * 2^-52 and
    (100 * 2^46) * 2^-46. *)
Definition one : number := S754_finite false 4503599627370496 (-52).
Definition hundred : number := S754_finite false 7036874417766400 (-46).

(** The numbers 1/2 and 50 in normal form. *)
Definition half : number := S754_finite false 4503599627370496 (-53).
Definition fifty : number := S754_finite false 7036874417766400 (-47).

End Player.


(* ===================================================================== *)
(** ** Guest storage (the [useGuestStorage] hook) *)
(* ===================================================================== *)

Module GuestStorage.

Record ReadingHistoryItem := {
  h_id : string;
  h_title : string;
  h_source_type : string;
  h_source_url : option string;
  h_content_preview : string;
  h_read_at : string
}.

(** [Omit<ReadingHistoryItem, "id" | "read_at">] *)
Record HistoryInput := {
  in_title : string;
  in_source_type : string;
  in_source_url : option string;
  in_content_preview : string
}.

Record BookmarkItem := {
  b_id : string;
  b_history_id : string;
  b_position : Z;
  b_total_words : Z;
  b_updated_at : string
}.

(** [addToHistory], run in a render whose state is [guestHistory].  The
    results of [crypto.randomUUID()] and [new Date().toISOString()] are
    inputs.  The returned list is what [setGuestHistory] and
    [localStorage.setItem] both receive. *)
Definition addToHistory (guestHistory : list ReadingHistoryItem)
    (item : HistoryInput) (uuid now : string) : list ReadingHistoryItem :=
  let newItem :=
    {| h_id := uuid;
       h_title := in_title item;
       h_source_type := in_source_type item;
       h_source_url := in_source_url item;
       h_content_preview := in_content_preview item;
       h_read_at := now |} in
  take 50 (newItem :: guestHistory).

(** [Array.prototype.findIndex]: the index of the first element that
    satisfies [p], or -1. *)
Fixpoint findIndex_from {A} (p : A -> bool) (l : list A) (i : Z) : Z :=
  match l with
  | [] => (-1)%Z
  | x :: r => if p x then i else findIndex_from p r (i + 1)%Z
  end.

Definition findIndex {A} (p : A -> bool) (l : list A) : Z :=
  findIndex_from p l 0%Z.

(** [(b) => b.history_id === historyId] *)
Definition has_key (historyId : string) (b : BookmarkItem) : bool :=
  String.eqb (b_history_id b) historyId.

(** [saveBookmark], run in a render whose state is [guestBookmarks]. *)
Definition saveBookmark (guestBookmarks : list BookmarkItem)
    (historyId : string) (position totalWords : Z) (uuid now : string)
  : list BookmarkItem :=
  let existingIndex := findIndex (has_key historyId) guestBookmarks in
  if (0 <=? existingIndex)%Z then
    alter
      (fun old =>
         {| b_id := b_id old;
            b_history_id := b_history_id old;
            b_position := position;
            b_total_words := totalWords;
            b_updated_at := now |})
      (Z.to_nat existingIndex) guestBookmarks
  else
    let newBookmark :=
      {| b_id := uuid;
         b_history_id := historyId;
         b_position := position;
         b_total_words := totalWords;
         b_updated_at := now |} in
    guestBookmarks ++ [newBookmark].

(** [getBookmark]: [guestBookmarks.find(...)]. *)
Definition getBookmark (guestBookmarks : list BookmarkItem)
    (historyId : string) : option BookmarkItem :=
  List.find (has_key historyId) guestBookmarks.

(** The bookmarks stored for one key. *)
Definition bookmarks_for (historyId : string) (bs : list BookmarkItem)
  : list BookmarkItem :=
  List.filter (has_key historyId) bs.

(** The two lists the hook keeps, in state and in [localStorage]. *)
Record Store := {
  guestHistory : list ReadingHistoryItem;
  guestBookmarks : list BookmarkItem
}.

Definition empty : Store := {| guestHistory := []; guestBookmarks := [] |}.

(** A call of the hook's API, with what the environment returns to it. *)
Inductive Call :=
| AddToHistory (item : HistoryInput) (uuid now : string)
| SaveBookmark (historyId : string) (position totalWords : Z)
    (uuid now : string).

(** The hook between two of its renders: [stored] is what the setters and
    [localStorage.setItem] last received, [rendered] holds the constants
    [guestHistory] and [guestBookmarks] of the render whose [addToHistory]
    and [saveBookmark] are being called. *)
Record Hook := {
  stored : Store;
  rendered : Store
}.

(** The hook once the lists have been loaded and rendered. *)
Definition mount (s : Store) : Hook := {| stored := s; rendered := s |}.

(** One call.  It computes from the lists of its render and replaces the
    stored list it is about; the other list is not touched. *)
Definition issue (h : Hook) (c : Call) : Hook :=
  match c with
  | AddToHistory item uuid now =>
      {| stored :=
           {| guestHistory :=
                addToHistory (guestHistory (rendered h)) item uuid now;
              guestBookmarks := guestBookmarks (stored h) |};
         rendered := rendered h |}
  | SaveBookmark historyId position totalWords uuid now =>
      {| stored :=
           {| guestHistory := guestHistory (stored h);
              guestBookmarks :=
                saveBookmark (guestBookmarks (rendered h)) historyId position
                  totalWords uuid now |};
         rendered := rendered h |}
  end.

(** What happens to the hook: a call, or a new render, which shows what is
    stored. *)
Inductive HookEvent :=
| Issue (c : Call)
| Rerender.

Definition hook_step (h : Hook) (e : HookEvent) : Hook :=
  match e with
  | Issue c => issue h c
  | Rerender => {| stored := stored h; rendered := stored h |}
  end.

Definition hook_run (es : list HookEvent) (h : Hook) : Hook :=
  fold_left hook_step es h.


(** Events that leave the bookmarks alone. *)
Definition quiet (e : HookEvent) : bool :=
  match e with
  | Rerender => true
  | Issue (AddToHistory _ _ _) => true
  | Issue (SaveBookmark _ _ _ _ _) => false
  end.





(** At most one bookmark for every key. *)
Definition unique_keys (bs : list BookmarkItem) : Prop :=
  forall historyId, length (bookmarks_for historyId bs) <= 1.

End GuestStorage.

(* ===================================================================== *)
(** ** PDF upload ([ContentInput.tsx], [handleFileUpload]) *)
(* ===================================================================== *)

Module Upload.

Record File := {
  f_size : N;
  f_type : string;
  f_name : string
}.

(** What the handler does to the outside, in order. *)
Inductive Action :=
| Toast (title description : string) (destructive : bool)
| SetLoading (loading : bool)
| ReadAsDataURL (file : File)
| Invoke (function_name : string) (pdfData : option string)
    (fileName : string)
| ContentExtracted (content title : string).

(** The answer of [supabase.functions.invoke]. *)
Inductive Response :=
| Data (content : string)
| Failure (message : string).

(** [s.split(",")] *)
Fixpoint split_comma_go (piece s : string) : list string :=
  match s with
  | EmptyString => [piece]
  | String c r =>
      if Ascii.eqb c ","%char then piece :: split_comma_go EmptyString r
      else split_comma_go (piece +:+ String c EmptyString) r
  end.

Definition split_comma (s : string) : list string :=
  split_comma_go EmptyString s.

(** The synchronous body of [handleFileUpload]; [file] is
    [e.target.files?.[0]]. *)
Definition handleFileUpload (file : option File) : list Action :=
  match file with
  | None => []
  | Some file =>
      if (10 * 1024 * 1024 <? f_size file)%N then
        [Toast "Error" "File size must be less than 10MB" true]
      else if negb (String.eqb (f_type file) "application/pdf") then
        [Toast "Error" "Only PDF files are supported" true]
      else
        [SetLoading true; ReadAsDataURL file; SetLoading false]
  end.

(** [reader.onload], run once the file started with [readAsDataURL] has
    been read; [result] is the data URL and [response] the answer of the
    extraction function.  On [Failure] the callback throws. *)
Definition reader_onload (file : File) (result : string)
    (response : Response) : list Action :=
  let base64Data := split_comma result !! 1%nat in
  Invoke "extract-pdf-content" base64Data (f_name file)
    :: match response with
       | Failure _ => []
       | Data content =>
           [ContentExtracted content (f_name file);
            Toast "Success" "PDF content extracted successfully!" false]
       end.

(** The callbacks that the reads started by a trace lead to. *)
Definition after_reads (result : string) (response : Response)
    (trace : list Action) : list Action :=
  flat_map
    (fun a =>
       match a with
       | ReadAsDataURL file => reader_onload file result response
       | _ => []
       end)
    trace.

(** Everything one upload does: the handler, then the reader callback. *)
Definition upload (file : option File) (result : string)
    (response : Response) : list Action :=
  let trace := handleFileUpload file in
  trace ++ after_reads result response trace.

Definition is_request (a : Action) : bool :=
  match a with
  | Invoke _ _ _ => true
  | _ => false
  end.

(** The network requests of a trace. *)
Definition requests (trace : list Action) : list Action :=
  List.filter is_request trace.

End Upload.


(* ===================================================================== *)
(** ** Scenarios used below *)
(* ===================================================================== *)

Module Scenario.
Import JS Player.

(** The units of ["The quick brown fox"]. *)
Definition fox : list jsstring := Tokenizer.words (lit "The quick brown fox").

(** The utterance that Play builds for the first unit in the first render. *)
Definition the_unit : Utterance :=
  {| u_text := lit "The"; u_index := 0; u_render := render init |}.

(** Play, then the engine reports the first unit as spoken. *)
Definition after_first_unit : State :=
  {| isPlaying := false; currentWordIndex := 1; synthQueue := [];
     utteranceRef := Some the_unit; speakLog := [the_unit] |}.

(** Play and completion, four times over: the whole text has been read. *)
Definition finished_fox : State :=
  run fox [Play; End; Play; End; Play; End; Play; End] init.

(** An 11 MB PDF, and a PDF of exactly 10 MB. *)
Definition big_pdf : Upload.File :=
  {| Upload.f_size := 11 * 1024 * 1024;
     Upload.f_type := "application/pdf";
     Upload.f_name := "big.pdf" |}.

Definition full_pdf : Upload.File :=
  {| Upload.f_size := 10 * 1024 * 1024;
     Upload.f_type := "application/pdf";
     Upload.f_name := "full.pdf" |}.

(** Two saves for the key ["abc"]: position 3 of 10, then 7 of 10. *)
Definition first_save : GuestStorage.Call :=
  GuestStorage.SaveBookmark "abc" 3 10 "id-1" "2025-10-23T08:06:14.000Z".


Definition second_save : GuestStorage.Call :=
  GuestStorage.SaveBookmark "abc" 7 10 "id-2" "2025-10-23T08:09:30.000Z".



End Scenario.


(* ===================================================================== *)
(** ** The reader's view and its voices ([TTSReader.tsx]) *)
(* ===================================================================== *)

Module Reader.
Import JS Player.

(** The test in the [className] of the word spans of
    [words.map((word, index) => ...)]: [index === currentWordIndex]. *)
Definition highlighted (words : list jsstring) (currentWordIndex : nat)
  : list bool :=
  imap (fun index _ => (index =? currentWordIndex)%nat) words.

(** [n] rounds of a click on Play followed by the completion of the unit. *)
Fixpoint rounds (n : nat) : list Event :=
  match n with
  | O => []
  | S n => Play :: End :: rounds n
  end.

(** An utterance that speaks the unit at its index. *)
Definition well_built (words : list jsstring) (u : Utterance) : Prop :=
  u_index u < length words /\ u_text u = nth (u_index u) words [].

(** What the controller keeps true from the initial state on. *)
Definition consistent (words : list jsstring) (st : State) : Prop :=
  currentWordIndex st <= length words
  /\ length (synthQueue st) <= 1
  /\ (isPlaying st = false -> synthQueue st = [])
  /\ Forall (fun u => u_index u = currentWordIndex st) (synthQueue st)
  /\ Forall (well_built words) (synthQueue st)
  /\ Forall (well_built words) (speakLog st).

(** A [SpeechSynthesisVoice]; the component reads its [name] only. *)
Record Voice := {
  v_name : jsstring;
  v_voiceURI : jsstring
}.

(** [s.startsWith(needle)], the step of [includes]. *)
Fixpoint starts_with (needle s : jsstring) : bool :=
  match needle, s with
  | [], _ => true
  | _ :: _, [] => false
  | a :: needle', b :: s' => (a =? b)%N && starts_with needle' s'
  end.

(** [s.includes(needle)]: [needle] occurs in [s] at some position. *)
Fixpoint includes (s needle : jsstring) : bool :=
  starts_with needle s
  || match s with
     | [] => false
     | _ :: r => includes r needle
     end.

(** [v => v.name.includes("Female") || v.name.includes("Samantha")] *)
Definition is_female (v : Voice) : bool :=
  includes (v_name v) (lit "Female") || includes (v_name v) (lit "Samantha").

(** [v => v.name.includes("Male") || v.name.includes("Daniel")] *)
Definition is_male (v : Voice) : bool :=
  includes (v_name v) (lit "Male") || includes (v_name v) (lit "Daniel").

(** The voice [loadVoices] passes to [setVoice]:
    [femaleVoice || maleVoice || availableVoices[0]]; [None] stands for
    [undefined], the first element of an empty list. *)
Definition defaultVoice (availableVoices : list Voice) : option Voice :=
  let femaleVoice := List.find is_female availableVoices in
  let maleVoice := List.find is_male availableVoices in
  match femaleVoice with
  | Some v => Some v
  | None =>
      match maleVoice with
      | Some v => Some v
      | None => head availableVoices
      end
  end.

(** The [onValueChange] of the voice select:
    [voices.find((v) => v.name === name) || null]. *)
Definition selectVoice (voices : list Voice) (name : jsstring)
  : option Voice :=
  List.find (fun v => bool_decide (v_name v = name)) voices.

End Reader.

(* ===================================================================== *)
(** ** URL input ([ContentInput.tsx], [handleUrlSubmit]) *)
(* ===================================================================== *)

Module UrlInput.

Inductive Action :=
| PreventDefault
| SetLoading (loading : bool)
| Invoke (function_name : string) (url : string)
| ContentExtracted (content title : string) (url : string)
| Toast (title description : string) (destructive : bool).

(** The answer of [supabase.functions.invoke]: [data], or an [error] with
    its [message] if it has one. *)
Inductive Response :=
| Data (content title : string)
| Failure (message : option string).

(** [error.message || "Failed to extract content"]: a missing or empty
    message gives way to the fallback. *)
Definition describe (message : option string) : string :=
  match message with
  | Some (String c r) => String c r
  | Some EmptyString | None => "Failed to extract content"
  end.

(** [handleUrlSubmit], with [url] the state of the input field. *)
Definition handleUrlSubmit (url : string) (response : Response)
  : list Action :=
  PreventDefault
    :: match url with
       | EmptyString => []
       | String _ _ =>
           [SetLoading true; Invoke "extract-web-content" url]
             ++ match response with
                | Data content title =>
                    [ContentExtracted content title url;
                     Toast "Success" "Content extracted successfully!" false]
                | Failure message =>
                    [Toast "Error" (describe message) true]
                end
             ++ [SetLoading false]
       end.

Definition is_request (a : Action) : bool :=
  match a with
  | Invoke _ _ => true
  | _ => false
  end.

Definition is_toast (a : Action) : bool :=
  match a with
  | Toast _ _ _ => true
  | _ => false
  end.

(** The value of [loading] after a trace, from the value before. *)
Definition loading_after (trace : list Action) (loading : bool) : bool :=
  fold_left
    (fun l a => match a with SetLoading b => b | _ => l end)
    trace loading.

End UrlInput.

(* ===================================================================== *)
(** ** The page ([pages/Index.tsx]) *)
(* ===================================================================== *)

Module Page.

Inductive SourceType := Url | Pdf.

(** The state of [Index] that decides what is on screen. *)
Record State := {
  content : string;
  title : string;
  sourceType : SourceType;
  sourceUrl : option string
}.

(** [useState("")], [useState("")], [useState("url")], [useState()]. *)
Definition initial : State :=
  {| content := ""; title := ""; sourceType := Url; sourceUrl := None |}.

Definition handleContentExtracted (extractedContent extractedTitle : string)
    (type : SourceType) (url : option string) (st : State) : State :=
  {| content := extractedContent; title := extractedTitle;
     sourceType := type; sourceUrl := url |}.

(** [handleSignOut]: [setContent("")] and [setTitle("")]. *)
Definition handleSignOut (st : State) : State :=
  {| content := ""; title := ""; sourceType := sourceType st;
     sourceUrl := sourceUrl st |}.

(** What [Index] returns: the reader with its props when [content] is
    truthy, and the landing page with the inputs otherwise. *)
Inductive View :=
| TTSReader (content title : string) (sourceType : SourceType)
    (sourceUrl : option string)
| Landing.

Definition view (st : State) : View :=
  match content st with
  | EmptyString => Landing
  | String _ _ =>
      TTSReader (content st) (title st) (sourceType st) (sourceUrl st)
  end.

(** The calls of [onContentExtracted] that [ContentInput] makes reach
    [handleContentExtracted]: from the upload with the file name as title,
    type ["pdf"] and no URL, from the URL form with type ["url"] and the
    URL. *)
Definition after_upload (trace : list Upload.Action) (st : State) : State :=
  fold_left
    (fun st a =>
       match a with
       | Upload.ContentExtracted c t => handleContentExtracted c t Pdf None st
       | _ => st
       end)
    trace st.

Definition after_url (trace : list UrlInput.Action) (st : State) : State :=
  fold_left
    (fun st a =>
       match a with
       | UrlInput.ContentExtracted c t u =>
           handleContentExtracted c t Url (Some u) st
       | _ => st
       end)
    trace st.

End Page.

(* ===================================================================== *)
(** ** Reading the traces of [ContentInput] *)
(* ===================================================================== *)

Module UploadView.
Import Upload.

(** The two checks of [handleFileUpload] both pass. *)
Definition accepted (file : File) : bool :=
  (f_size file <=? 10 * 1024 * 1024)%N
  && String.eqb (f_type file) "application/pdf".

Definition is_toast (a : Action) : bool :=
  match a with
  | Toast _ _ _ => true
  | _ => false
  end.

Definition is_content (a : Action) : bool :=
  match a with
  | ContentExtracted _ _ => true
  | _ => false
  end.

(** The value of [loading] after a trace, from the value before. *)
Definition loading_after (trace : list Action) (loading : bool) : bool :=
  fold_left
    (fun l a => match a with SetLoading b => b | _ => l end)
    trace loading.

(** No comma in a string. *)
Fixpoint comma_free (s : string) : bool :=
  match s with
  | EmptyString => true
  | String c r => negb (Ascii.eqb c ","%char) && comma_free r
  end.

End UploadView.

(* ===================================================================== *)
(** ** Further scenarios *)
(* ===================================================================== *)

Module Scenario2.
Import JS Player Reader.

Definition voice (name : string) : Voice :=
  {| v_name := lit name; v_voiceURI := lit name |}.

(** A voice list in the order a browser may report it. *)
Definition some_voices : list Voice :=
  [voice "Alex"; voice "Daniel"; voice "Google UK English Female";
   voice "Samantha"].

Definition small_pdf : Upload.File :=
  {| Upload.f_size := 2048;
     Upload.f_type := "application/pdf";
     Upload.f_name := "paper.pdf" |}.

Definition data_url : string := "data:application/pdf;base64,JVBERi0xLjQ=".

End Scenario2.


(* ===================================================================== *)
(** * Properties *)
(* ===================================================================== *)

(** ** Tokenizer *)

Module TokenizerSpec.
Import JS Tokenizer.

Lemma nonempty_true w : nonempty w = true <-> w <> [].
Proof.
  unfold nonempty. destruct w; simpl; split; intros H; try done.
Qed.

(** Every piece of the scan is free of whitespace when the piece under
    construction is. *)
Lemma split_go_ws_free s : forall b piece,
  ws_free piece -> Forall ws_free (split_go b piece s).
Proof.
  induction s as [|c r IH]; intros b piece Hp; simpl.
  - by constructor.
  - destruct (is_ws c) eqn:Hc.
    + destruct b.
      * by apply IH.
      * constructor; [done|]. apply IH. constructor.
    + apply IH. apply Forall_app. split; [done|]. by repeat constructor.
Qed.

(** A whitespace-free string only extends the current piece. *)
Lemma split_go_ws_free_prefix w : forall b piece s,
  ws_free w -> w <> [] ->
  split_go b piece (w ++ s) = split_go false (piece ++ w) s.
Proof.
  induction w as [|c w IH]; intros b piece s Hw Hne; [done|].
  inversion Hw as [|? ? Hc Hw']; subst. simpl. rewrite Hc.
  destruct w as [|c' w'].
  - simpl. done.
  - rewrite (IH false (piece ++ [c]) s Hw' ltac:(done)).
    by rewrite <- app_assoc.
Qed.

(** Whether the scan starts inside a separator does not show after the
    empty pieces are dropped. *)
Lemma filter_split_go_in_sep s :
  List.filter nonempty (split_go true [] s)
  = List.filter nonempty (split_go false [] s).
Proof.
  destruct s as [|c r]; [done|]. simpl. by destruct (is_ws c).
Qed.

Lemma words_unit_ok content : Forall unit_ok (words content).
Proof.
  unfold words, split_ws.
  pose proof (split_go_ws_free content false [] ltac:(constructor)) as H.
  induction H as [|w l Hw Hl IH]; simpl; [constructor|].
  destruct (nonempty w) eqn:Hn; [|done].
  constructor; [|done]. split; [by apply nonempty_true | done].
Qed.

(** Tokenizing a canonical text, units joined by single spaces, gives the
    units back. *)
Lemma words_join_space l : Forall unit_ok l -> words (join_space l) = l.
Proof.
  induction 1 as [|w l [Hne Hw] Hl IH]; [done|].
  destruct l as [|w' l'].
  - simpl. unfold words, split_ws.
    rewrite <- (app_nil_r w) at 1.
    rewrite split_go_ws_free_prefix by done. simpl.
    by apply nonempty_true in Hne as ->.
  - change (join_space (w :: w' :: l'))
      with (w ++ SPACE :: join_space (w' :: l')).
    unfold words, split_ws.
    rewrite split_go_ws_free_prefix by done. simpl.
    apply nonempty_true in Hne as ->.
    rewrite filter_split_go_in_sep. f_equal. exact IH.
Qed.

(** The units, concatenated, are the text without its whitespace: nothing
    is lost, added or reordered. *)
Lemma split_go_concat s : forall b piece,
  concat (split_go b piece s)
  = piece ++ List.filter (fun c => negb (is_ws c)) s.
Proof.
  induction s as [|c r IH]; intros b piece; simpl.
  - by rewrite !app_nil_r.
  - destruct (is_ws c); simpl.
    + destruct b; simpl; rewrite IH; done.
    + rewrite IH. by rewrite <- app_assoc.
Qed.

Lemma concat_filter_nonempty (l : list jsstring) :
  concat (List.filter nonempty l) = concat l.
Proof.
  induction l as [|w l IH]; [done|]. simpl.
  destruct w; simpl; [done|]. by rewrite IH.
Qed.

Lemma words_concat content :
  concat (words content) = List.filter (fun c => negb (is_ws c)) content.
Proof.
  unfold words, split_ws. rewrite concat_filter_nonempty.
  by rewrite split_go_concat.
Qed.

Example words_fox :
  words (lit "The quick brown fox")
  = [lit "The"; lit "quick"; lit "brown"; lit "fox"].
Proof. reflexivity. Qed.

Example words_ragged :
  words (lit "  The   quick" ++ [0x0A; 0x09; 0xA0]%N ++ lit "fox ")
  = [lit "The"; lit "quick"; lit "fox"].
Proof. reflexivity. Qed.

Example split_ws_keeps_edges :
  split_ws (lit " a  b ") = [[]; lit "a"; lit "b"; []]
  /\ split_ws [] = [[]].
Proof. split; reflexivity. Qed.

End TokenizerSpec.


(** ** Playback controller *)

Module PlayerSpec.
Import JS Player Scenario.

Section Facts.
Variable words : list jsstring.

Lemma speakWord_past_end r index st :
  length words <= index -> speakWord words r index st = setIsPlaying false st.
Proof.
  intros H. unfold speakWord.
  destruct (Nat.leb_spec (length words) index); [done | lia].
Qed.

Lemma speakWord_within r index st :
  index < length words ->
  speakWord words r index st
  = let u := {| u_text := nth index words []; u_index := index;
                u_render := r |} in
    setUtteranceRef u (speak u st).
Proof.
  intros H. unfold speakWord.
  destruct (Nat.leb_spec (length words) index); [lia | done].
Qed.

(** The completion callback of an utterance built while [isPlaying] was
    false never speaks again. *)
Lemma onend_not_playing u st :
  r_isPlaying (u_render u) = false ->
  onend words u st
  = setIsPlaying false (setCurrentWordIndex (u_index u + 1) st).
Proof. intros H. unfold onend. by rewrite H. Qed.


(** Play from a state that shows the Play button, within the text: one
    utterance for the unit at the current index is handed to the engine. *)
Lemma play_within st :
  currentWordIndex st < length words ->
  play words st
  = let u := {| u_text := nth (currentWordIndex st) words [];
                u_index := currentWordIndex st; u_render := render st |} in
    {| isPlaying := true; currentWordIndex := currentWordIndex st;
       synthQueue := synthQueue st ++ [u]; utteranceRef := Some u;
       speakLog := speakLog st ++ [u] |}.
Proof.
  intros H. unfold play, handlePlay. simpl.
  by rewrite speakWord_within.
Qed.

(** What the code does on the first completion after Play: the index moves
    on by one and playback ends, with nothing handed to the engine. *)
Lemma completion_after_play_halts st :
  isPlaying st = false -> synthQueue st = [] ->
  currentWordIndex st < length words ->
  let st' := utterance_end words (play words st) in
  isPlaying st' = false
  /\ currentWordIndex st' = currentWordIndex st + 1
  /\ synthQueue st' = []
  /\ length (speakLog st') = length (speakLog st) + 1.
Proof.
  intros Hp Hq Hi. rewrite play_within by done. simpl.
  unfold utterance_end. simpl. rewrite Hq. simpl.
  rewrite onend_not_playing by (simpl; done). simpl.
  rewrite length_app. simpl. done.
Qed.

Lemma step_built_while_idle st e :
  built_while_idle st -> built_while_idle (step words st e).
Proof.
  intros H. pose proof H as [Hq Hl]. destruct e; simpl.
  - destruct (isPlaying st) eqn:Hp; [done|].
    unfold play, handlePlay, speakWord. simpl.
    destruct (length words <=? currentWordIndex st); [done|].
    split; simpl; apply Forall_app; (split; [done|]);
      repeat constructor; simpl; done.
  - destruct (isPlaying st); [|done]. split; simpl; [constructor | done].
  - split; simpl; [constructor | done].
  - unfold utterance_end. destruct (synthQueue st) as [|u q]; [exact H|].
    inversion Hq as [|? ? Hu Hq']; subst.
    rewrite onend_not_playing by done. by split.
  - unfold utterance_error. destruct (synthQueue st) as [|u q]; [exact H|].
    inversion Hq; subst. by split.
Qed.

Lemma run_built_while_idle es : forall st,
  built_while_idle st -> built_while_idle (run words es st).
Proof.
  induction es as [|e es IH]; intros st H; [done|].
  apply IH. by apply step_built_while_idle.
Qed.

(** With the buttons as rendered, a completion never hands the next unit
    to the engine: after any events from the initial state, a completion
    leaves the trace of [speak] calls as it was and ends playback. *)
Lemma completion_never_continues es :
  let st := run words es init in
  speakLog (utterance_end words st) = speakLog st
  /\ (synthQueue st <> [] -> isPlaying (utterance_end words st) = false).
Proof.
  intros st.
  assert (H : built_while_idle st).
  { apply run_built_while_idle. split; constructor. }
  destruct H as [Hq _]. unfold utterance_end.
  destruct (synthQueue st) as [|u q]; [done|].
  inversion Hq; subst. rewrite onend_not_playing by done. done.
Qed.

(** With an empty speech queue the engine has nothing to report: its
    events leave the state as it is. *)
Lemma engine_idle es : forall st,
  synthQueue st = [] ->
  forallb from_engine es = true ->
  run words es st = st.
Proof.
  induction es as [|e es IH]; intros st Hq Hes; [done|].
  simpl in Hes. apply andb_prop in Hes as [He Hes].
  assert (Hstep : step words st e = st).
  { destruct e; try discriminate; simpl.
    - unfold utterance_end. by rewrite Hq.
    - unfold utterance_error. by rewrite Hq. }
  simpl. rewrite Hstep. by apply IH.
Qed.




(** C4.  Stop, from any state, leaves the controller not playing at index
    0 with an empty speech queue, so that no later event of the engine
    changes anything; this holds in particular from a finished session. *)
Theorem stop_resets (st : State) :
  isPlaying (stop st) = false
  /\ currentWordIndex (stop st) = 0
  /\ synthQueue (stop st) = []
  /\ step words st Stop = stop st
  /\ (forall es,
        forallb from_engine es = true -> run words es (stop st) = stop st)
  /\ (Finished words st -> currentWordIndex (step words st Stop) = 0).
Proof.
  do 4 (split; [reflexivity|]).
  split; [intros es Hes; by apply engine_idle | reflexivity].
Qed.

Lemma utterance_error_queue st :
  synthQueue (utterance_error st) = tail (synthQueue st).
Proof.
  unfold utterance_error.
  destruct (synthQueue st) eqn:E; simpl; rewrite ?E; reflexivity.
Qed.

(** C5, as amended.  An error reported for the utterance at the head of the
    queue finds no handler: the index, the playing flag and the trace of
    emissions stay as they were, the failed utterance leaves the queue, and
    nothing is handed to the engine.  When it was the only utterance queued,
    no later event of the engine changes anything: playback stays where it
    is until a button is pressed. *)
Theorem error_changes_nothing (st : State) :
  isPlaying (utterance_error st) = isPlaying st
  /\ currentWordIndex (utterance_error st) = currentWordIndex st
  /\ speakLog (utterance_error st) = speakLog st
  /\ utteranceRef (utterance_error st) = utteranceRef st
  /\ synthQueue (utterance_error st) = tail (synthQueue st)
  /\ step words st Error = utterance_error st
  /\ (tail (synthQueue st) = [] ->
      forall es,
        forallb from_engine es = true ->
        run words es (utterance_error st) = utterance_error st).
Proof.
  split_and!; try reflexivity; try apply utterance_error_queue.
  - unfold utterance_error. by destruct (synthQueue st).
  - unfold utterance_error. by destruct (synthQueue st).
  - unfold utterance_error. by destruct (synthQueue st).
  - unfold utterance_error. by destruct (synthQueue st).
  - intros Ht es Hes. apply engine_idle; [|done].
    by rewrite utterance_error_queue.
Qed.

(** C10.  Play at or past the end of the text hands nothing to the engine,
    keeps the index and ends not playing; on a finished session it changes
    nothing at all, and on a text without units it ends finished at once. *)
Theorem play_at_end_emits_nothing (st : State) :
  length words <= currentWordIndex st ->
  isPlaying (play words st) = false
  /\ currentWordIndex (play words st) = currentWordIndex st
  /\ speakLog (play words st) = speakLog st
  /\ synthQueue (play words st) = synthQueue st
  /\ (Finished words st -> play words st = st)
  /\ (words = [] -> currentWordIndex st = 0 -> Finished words (play words st)).
Proof.
  intros H. unfold play, handlePlay. simpl.
  rewrite speakWord_past_end by done. simpl.
  do 4 (split; [reflexivity|]). split.
  - intros [Hp _]. destruct st; simpl in *. by subst.
  - intros -> Hi. split; [reflexivity | exact Hi].
Qed.

End Facts.

(** C2, the code at the failing input: Play on "The quick brown fox" and
    one completion leave the controller not playing at index 1 with nothing
    queued; further completion signals find nothing to complete, and only
    "The" has been spoken. *)
Example play_stops_after_one_unit :
  fox = [lit "The"; lit "quick"; lit "brown"; lit "fox"]
  /\ run fox [Play; End] init = after_first_unit
  /\ run fox [Play; End; End; End; End] init = after_first_unit
  /\ map u_text (speakLog (run fox [Play; End; End; End; End] init))
     = [lit "The"].
Proof. repeat split. Qed.

(** C5, the claim as written fails: after Play on "The quick brown fox" an
    error on "The" leaves the index at 0 with nothing queued, where a
    completion moves it to 1. *)
Lemma error_is_not_completion :
  currentWordIndex (run fox [Play; Error] init) = 0
  /\ currentWordIndex (run fox [Play; End] init) = 1
  /\ synthQueue (run fox [Play; Error] init) = []
  /\ isPlaying (run fox [Play; Error] init) = true
  /\ map u_text (speakLog (run fox [Play; Error; End; End] init))
     = [lit "The"].
Proof. repeat split. Qed.


(** Play on "The quick brown fox", an error on "The", then two engine
    events: still playing, still at index 0. *)
Lemma error_changes_nothing_witness :
  tail (synthQueue (play fox init)) = []
  /\ forallb from_engine [End; End] = true
  /\ isPlaying (utterance_error (play fox init)) = true
  /\ currentWordIndex (utterance_error (play fox init)) = 0
  /\ run fox [End; End] (utterance_error (play fox init))
     = utterance_error (play fox init).
Proof.
  assert (Ht : tail (synthQueue (play fox init)) = []) by reflexivity.
  assert (He : forallb from_engine [End; End] = true) by reflexivity.
  destruct (error_changes_nothing fox (play fox init))
    as (Hp & Hi & _ & _ & _ & _ & Hidle).
  split; [exact Ht|]. split; [exact He|].
  split; [rewrite Hp; reflexivity|].
  split; [rewrite Hi; reflexivity|].
  exact (Hidle Ht [End; End] He).
Defined.

(** Stop on the finished session of "The quick brown fox". *)
Lemma stop_resets_witness :
  Finished fox finished_fox
  /\ forallb from_engine [End; End] = true
  /\ currentWordIndex (step fox finished_fox Stop) = 0
  /\ run fox [End; End] (stop finished_fox) = stop finished_fox.
Proof.
  assert (Hf : Finished fox finished_fox) by (split; reflexivity).
  assert (He : forallb from_engine [End; End] = true) by reflexivity.
  destruct (stop_resets fox finished_fox) as (_ & _ & _ & _ & Hidle & Hfin).
  split; [exact Hf|]. split; [exact He|].
  split; [exact (Hfin Hf) | exact (Hidle [End; End] He)].
Defined.

(** The finished session of the scenario is finished. *)
Lemma finished_fox_Finished : Finished fox finished_fox.
Proof. split; reflexivity. Qed.

(** Play on the finished session of "The quick brown fox". *)
Lemma play_at_end_emits_nothing_witness :
  length fox <= currentWordIndex finished_fox
  /\ play fox finished_fox = finished_fox.
Proof.
  assert (H : length fox <= currentWordIndex finished_fox)
    by (vm_compute; lia).
  split; [exact H|].
  apply (play_at_end_emits_nothing fox finished_fox H).
  split; reflexivity.
Defined.

End PlayerSpec.


(** ** Derived progress value *)

Module ProgressSpec.
Import Player Scenario.

(** A finite number divided by itself is exactly 1. *)
Lemma div_self s m e :
  div (S754_finite s m e) (S754_finite s m e) = one.
Proof.
  unfold div, SFdiv, SFdiv_core_binary.
  replace (Zdigits2 (Z.pos m) + e - (Zdigits2 (Z.pos m) + e))%Z
    with 0%Z by lia.
  replace (e - e)%Z with 0%Z by lia.
  change (Z.min (fexp 53 1024 0) 0) with (-53)%Z.
  change (0 - -53)%Z with 53%Z. cbv beta iota zeta.
  rewrite Z.shiftl_mul_pow2 by lia.
  assert (H : Z.div_eucl (Z.pos m * 2 ^ 53) (Z.pos m) = (2 ^ 53, 0)%Z).
  { pose proof (Z.div_mul (2 ^ 53) (Z.pos m)) as Hd.
    pose proof (Z.mod_mul (2 ^ 53) (Z.pos m)) as Hm.
    unfold Z.div, Z.modulo in Hd, Hm.
    rewrite (Z.mul_comm (Z.pos m)).
    destruct (Z.div_eucl (2 ^ 53 * Z.pos m) (Z.pos m)) as [q r].
    rewrite Hd, Hm by lia. reflexivity. }
  rewrite H.
  assert (Hl : new_location (Z.pos m) 0 = loc_Exact)
    by (destruct m; reflexivity).
  rewrite Hl. destruct s; vm_compute; reflexivity.
Qed.

Lemma number_of_nat_pos n :
  0 < n -> number_of_nat n = S754_finite false (Pos.of_nat n) 0.
Proof. destruct n; [lia | done]. Qed.

Lemma div_zero_pos n :
  0 < n -> div (number_of_nat 0) (number_of_nat n) = S754_zero false.
Proof. intros H. rewrite (number_of_nat_pos n) by done. reflexivity. Qed.

(** C7, as amended.  The derived value is the quotient of index and
    length, scaled by 100: a percentage.  It is exactly 100 when the index
    equals a non-zero length, exactly 0 at index 0 of a non-empty text, and
    not a number when the text has no unit. *)
Theorem progress_is_percentage :
  (forall i n,
     progress i n
     = mul (div (number_of_nat i) (number_of_nat n)) (number_of_nat 100))
  /\ (forall n, 0 < n -> div (number_of_nat n) (number_of_nat n) = one)
  /\ (forall n, 0 < n -> progress n n = hundred)
  /\ (forall n, 0 < n -> progress 0 n = S754_zero false)
  /\ progress 0 0 = S754_nan.
Proof.
  split; [reflexivity|].
  split; [intros n Hn; rewrite (number_of_nat_pos n) by done; apply div_self|].
  split.
  { intros n Hn. unfold progress. rewrite (number_of_nat_pos n) by done.
    rewrite div_self. reflexivity. }
  split; [|reflexivity].
  intros n Hn. unfold progress. rewrite div_zero_pos by done. reflexivity.
Qed.

(** C7, the claim as written fails: at the end of "The quick brown fox",
    index 4 of 4, the derived value is 100 and not 1; after two units it is
    50 and not 1/2. *)
Lemma progress_at_end_is_hundred :
  progress (length fox) (length fox) = hundred
  /\ hundred <> one
  /\ progress 2 (length fox) = fifty
  /\ fifty <> half.
Proof. split_and!; [reflexivity | discriminate | reflexivity | discriminate]. Qed.

(** Index 4 of the 4 units of "The quick brown fox". *)
Lemma progress_is_percentage_witness :
  0 < length fox /\ progress (length fox) (length fox) = hundred.
Proof.
  assert (H : 0 < length fox) by (vm_compute; lia).
  split; [exact H|].
  destruct progress_is_percentage as (_ & _ & Hfull & _).
  exact (Hfull (length fox) H).
Defined.

End ProgressSpec.


(** ** Guest storage *)

Module GuestStorageSpec.
Import GuestStorage Scenario.

Section FindIndex.
Context {A : Type} (p : A -> bool).

Lemma findIndex_from_range l : forall i,
  (0 <= i)%Z ->
  findIndex_from p l i = (-1)%Z \/ (i <= findIndex_from p l i)%Z.
Proof.
  induction l as [|x l IH]; intros i Hi; simpl; [by left|].
  destruct (p x); [right; lia|].
  destruct (IH (i + 1)%Z ltac:(lia)) as [->| H]; [by left | right; lia].
Qed.

(** Starting the count one higher moves a hit one higher and leaves a miss
    a miss. *)
Lemma findIndex_from_succ l : forall i,
  (0 <= i)%Z ->
  findIndex_from p l (i + 1)
  = if (findIndex_from p l i <? 0)%Z then (-1)%Z
    else (findIndex_from p l i + 1)%Z.
Proof.
  induction l as [|x l IH]; intros i Hi; simpl; [done|].
  destruct (p x).
  - destruct (Z.ltb_spec i 0); [lia | done].
  - apply IH. lia.
Qed.

Lemma findIndex_cons x l :
  findIndex p (x :: l)
  = if p x then 0%Z
    else if (findIndex p l <? 0)%Z then (-1)%Z else (findIndex p l + 1)%Z.
Proof.
  unfold findIndex. simpl. destruct (p x); [done|].
  by rewrite (findIndex_from_succ l 0).
Qed.

Lemma findIndex_range l :
  findIndex p l = (-1)%Z \/ (0 <= findIndex p l)%Z.
Proof. by apply findIndex_from_range. Qed.

End FindIndex.

(** A save into the empty list appends the new bookmark. *)
Lemma saveBookmark_nil K pos tot uuid now :
  saveBookmark [] K pos tot uuid now
  = [ {| b_id := uuid; b_history_id := K; b_position := pos;
         b_total_words := tot; b_updated_at := now |} ].
Proof. reflexivity. Qed.

(** [saveBookmark] along the list: the first bookmark with the key is
    rewritten in place, and a bookmark is appended when there is none. *)
Lemma saveBookmark_cons b bs K pos tot uuid now :
  saveBookmark (b :: bs) K pos tot uuid now
  = if has_key K b then
      {| b_id := b_id b; b_history_id := b_history_id b;
         b_position := pos; b_total_words := tot; b_updated_at := now |}
      :: bs
    else b :: saveBookmark bs K pos tot uuid now.
Proof.
  unfold saveBookmark. rewrite findIndex_cons.
  destruct (has_key K b); [done|].
  destruct (findIndex_range (has_key K) bs) as [-> | H]; [done|].
  destruct (Z.ltb_spec (findIndex (has_key K) bs) 0); [lia|].
  destruct (Z.leb_spec 0 (findIndex (has_key K) bs + 1)); [|lia].
  destruct (Z.leb_spec 0 (findIndex (has_key K) bs)); [|lia].
  rewrite Z2Nat.inj_add by lia.
  change (Z.to_nat 1) with 1. rewrite Nat.add_1_r. done.
Qed.

Lemma has_key_true K b : has_key K b = true <-> b_history_id b = K.
Proof. unfold has_key. apply String.eqb_eq. Qed.

Lemma has_key_false K b : has_key K b = false <-> b_history_id b <> K.
Proof. unfold has_key. apply String.eqb_neq. Qed.

(** Rewriting a bookmark keeps its key. *)
Lemma has_key_rewritten K b pos tot now :
  has_key K
    {| b_id := b_id b; b_history_id := b_history_id b; b_position := pos;
       b_total_words := tot; b_updated_at := now |}
  = has_key K b.
Proof. reflexivity. Qed.

(** A save for one key leaves the bookmarks of every other key alone. *)
Lemma saveBookmark_other bs K K' pos tot uuid now :
  K' <> K ->
  bookmarks_for K' (saveBookmark bs K pos tot uuid now) = bookmarks_for K' bs.
Proof.
  intros Hne. induction bs as [|b bs IH].
  - rewrite saveBookmark_nil. unfold bookmarks_for. simpl.
    destruct (has_key K' _) eqn:E; [|done].
    apply has_key_true in E. simpl in E. congruence.
  - rewrite saveBookmark_cons. destruct (has_key K b) eqn:E.
    + apply has_key_true in E. unfold bookmarks_for. cbn [List.filter].
      rewrite has_key_rewritten.
      assert (Hk : has_key K' b = false) by (apply has_key_false; congruence).
      by rewrite Hk.
    + unfold bookmarks_for in *. cbn [List.filter].
      destruct (has_key K' b); by rewrite IH.
Qed.

(** A save for a key with no bookmark yet stores exactly the new one. *)
Lemma saveBookmark_fresh bs K pos tot uuid now :
  bookmarks_for K bs = [] ->
  bookmarks_for K (saveBookmark bs K pos tot uuid now)
  = [ {| b_id := uuid; b_history_id := K; b_position := pos;
         b_total_words := tot; b_updated_at := now |} ].
Proof.
  induction bs as [|b bs IH]; intros H.
  - rewrite saveBookmark_nil. unfold bookmarks_for, has_key. simpl.
    by rewrite String.eqb_refl.
  - rewrite saveBookmark_cons. unfold bookmarks_for in *.
    cbn [List.filter] in *.
    destruct (has_key K b) eqn:E; [done|].
    cbn [List.filter]. rewrite E. by apply IH.
Qed.

(** A save for a key with one bookmark rewrites that one and keeps its id. *)
Lemma saveBookmark_existing bs K old pos tot uuid now :
  bookmarks_for K bs = [old] ->
  bookmarks_for K (saveBookmark bs K pos tot uuid now)
  = [ {| b_id := b_id old; b_history_id := K; b_position := pos;
         b_total_words := tot; b_updated_at := now |} ].
Proof.
  induction bs as [|b bs IH]; intros H; [done|].
  rewrite saveBookmark_cons. unfold bookmarks_for in *.
  cbn [List.filter] in *.
  destruct (has_key K b) eqn:E.
  - injection H as -> Hrest. cbn [List.filter].
    rewrite has_key_rewritten, E, Hrest.
    apply has_key_true in E. by rewrite E.
  - cbn [List.filter]. rewrite E. by apply IH.
Qed.

(** With at most one bookmark for the key before, a save leaves exactly
    one, carrying the saved position, total and time. *)
Lemma saveBookmark_one bs K pos tot uuid now :
  length (bookmarks_for K bs) <= 1 ->
  exists b,
    bookmarks_for K (saveBookmark bs K pos tot uuid now) = [b]
    /\ b_history_id b = K /\ b_position b = pos
    /\ b_total_words b = tot /\ b_updated_at b = now.
Proof.
  intros H. destruct (bookmarks_for K bs) as [|old [|? ?]] eqn:E.
  - eexists. split; [by apply saveBookmark_fresh | done].
  - eexists. split; [by apply saveBookmark_existing | done].
  - simpl in H. lia.
Qed.

(** A call keeps the count for a key at one or below, in what it stores,
    as long as its render has it so. *)
Lemma hook_step_keeps_count h e K :
  length (bookmarks_for K (guestBookmarks (stored h))) <= 1 ->
  length (bookmarks_for K (guestBookmarks (rendered h))) <= 1 ->
  length (bookmarks_for K (guestBookmarks (stored (hook_step h e)))) <= 1
  /\ length (bookmarks_for K (guestBookmarks (rendered (hook_step h e)))) <= 1.
Proof.
  intros Hs Hr.
  destruct e as [[item uuid now | k pos tot uuid now] | ]; simpl;
    [done | | done].
  split; [|done]. destruct (String.eqb_spec k K) as [-> | Hne].
  - destruct (saveBookmark_one (guestBookmarks (rendered h)) K pos tot uuid
                now Hr) as (b & -> & _). done.
  - by rewrite saveBookmark_other.
Qed.

Lemma hook_run_keeps_count es K : forall h,
  length (bookmarks_for K (guestBookmarks (stored h))) <= 1 ->
  length (bookmarks_for K (guestBookmarks (rendered h))) <= 1 ->
  length (bookmarks_for K (guestBookmarks (stored (hook_run es h)))) <= 1
  /\ length (bookmarks_for K (guestBookmarks (rendered (hook_run es h)))) <= 1.
Proof.
  induction es as [|e es IH]; intros h Hs Hr; [done|].
  destruct (hook_step_keeps_count h e K Hs Hr) as [Hs' Hr'].
  by apply IH.
Qed.

(** Renders and additions to the history leave the stored bookmarks as
    they are. *)
Lemma hook_run_quiet es : forall h,
  forallb quiet es = true ->
  guestBookmarks (stored (hook_run es h)) = guestBookmarks (stored h).
Proof.
  induction es as [|e es IH]; intros h H; [done|].
  simpl in H. apply andb_prop in H as [He H].
  simpl. rewrite IH by done.
  by destruct e as [[item uuid now | k pos tot uuid now] | ].
Qed.

(** Every list of bookmarks the hook stores, from the empty store on and
    from whichever renders the calls come, has at most one bookmark per
    key. *)
Lemma hook_unique_keys es :
  unique_keys (guestBookmarks (stored (hook_run es (mount empty)))).
Proof. intros K. apply hook_run_keeps_count; simpl; lia. Qed.

(** [find] returns the first of the elements [filter] keeps. *)
Lemma find_head_filter {A} (p : A -> bool) l :
  List.find p l = head (List.filter p l).
Proof.
  induction l as [|x l IH]; [done|]. simpl. by destruct (p x).
Qed.

(** C6.  Let the hook start from a store with at most one bookmark for a
    key, as every store the hook writes is.  After any calls and renders
    that end with a save for that key, the save issued from whichever
    render and followed by nothing that saves a bookmark, exactly one
    bookmark for the key is stored; it carries the position and total of
    that last save, and it is the one [getBookmark] finds. *)
Theorem save_is_upsert (s : Store) (K : string)
    (before after : list HookEvent) (pos tot : Z) (uuid now : string) :
  length (bookmarks_for K (guestBookmarks s)) <= 1 ->
  forallb quiet after = true ->
  exists b,
    bookmarks_for K
      (guestBookmarks
         (stored
            (hook_run
               (before ++ Issue (SaveBookmark K pos tot uuid now) :: after)
               (mount s))))
    = [b]
    /\ b_position b = pos
    /\ b_total_words b = tot
    /\ getBookmark
         (guestBookmarks
            (stored
               (hook_run
                  (before ++ Issue (SaveBookmark K pos tot uuid now) :: after)
                  (mount s))))
         K
       = Some b.
Proof.
  intros Hs Hafter. unfold hook_run. rewrite fold_left_app. simpl.
  fold (hook_run before (mount s)).
  set (h1 := hook_run before (mount s)).
  assert (H1 : length (bookmarks_for K (guestBookmarks (rendered h1))) <= 1)
    by by apply hook_run_keeps_count.
  destruct (saveBookmark_one (guestBookmarks (rendered h1)) K pos tot uuid
              now H1) as (b & Hb & _ & Hpos & Htot & _).
  exists b.
  fold (hook_run after (issue h1 (SaveBookmark K pos tot uuid now))).
  rewrite hook_run_quiet by done.
  unfold getBookmark. rewrite find_head_filter.
  fold (bookmarks_for K
          (guestBookmarks (stored (issue h1 (SaveBookmark K pos tot uuid now))))).
  simpl. rewrite Hb. split_and!; try done.
  fold (bookmarks_for K
          (saveBookmark (guestBookmarks (rendered h1)) K pos tot uuid now)).
  by rewrite Hb.
Qed.

(** Key "abc" saved at 3 of 10 and, after a render, at 7 of 10, from the
    empty store. *)
Lemma save_is_upsert_witness :
  length (bookmarks_for "abc" (guestBookmarks empty)) <= 1
  /\ forallb quiet [Rerender] = true
  /\ exists b,
       bookmarks_for "abc"
         (guestBookmarks
            (stored
               (hook_run
                  ([Issue first_save; Rerender]
                   ++ Issue second_save :: [Rerender])
                  (mount empty))))
       = [b]
       /\ b_position b = 7%Z
       /\ b_total_words b = 10%Z
       /\ getBookmark
            (guestBookmarks
               (stored
                  (hook_run
                     ([Issue first_save; Rerender]
                      ++ Issue second_save :: [Rerender])
                     (mount empty))))
            "abc"
          = Some b.
Proof.
  assert (H : length (bookmarks_for "abc" (guestBookmarks empty)) <= 1)
    by (vm_compute; lia).
  assert (Hq : forallb quiet [Rerender] = true) by reflexivity.
  split; [exact H|]. split; [exact Hq|].
  exact (save_is_upsert empty "abc" [Issue first_save; Rerender] [Rerender]
           7 10 "id-2" "2025-10-23T08:09:30.000Z" H Hq).
Defined.

(** The scenario, evaluated: one bookmark, first id, second position. *)
Example save_twice :
  guestBookmarks
    (stored
       (hook_run [Issue first_save; Rerender; Issue second_save] (mount empty)))
  = [ {| b_id := "id-1"; b_history_id := "abc"; b_position := 7;
         b_total_words := 10;
         b_updated_at := "2025-10-23T08:09:30.000Z" |} ].
Proof. reflexivity. Qed.

(** Both saves issued from one render: the second does not see the
    first, and stores one bookmark with its own id. *)
Example save_twice_one_render :
  guestBookmarks
    (stored (hook_run [Issue first_save; Issue second_save] (mount empty)))
  = [ {| b_id := "id-2"; b_history_id := "abc"; b_position := 7;
         b_total_words := 10;
         b_updated_at := "2025-10-23T08:09:30.000Z" |} ].
Proof. reflexivity. Qed.

(** A save for another key issued from the same render replaces what the
    first save stored. *)
Example save_other_key_one_render :
  map b_history_id
    (guestBookmarks
       (stored
          (hook_run
             [Issue first_save;
              Issue (SaveBookmark "xyz" 1 5 "id-3" "2025-10-23T08:10:00.000Z")]
             (mount empty))))
  = ["xyz"].
Proof. reflexivity. Qed.

(** Only the first of several bookmarks with one key is rewritten: a list
    that breaks the invariant stays broken. *)
Example save_on_duplicates :
  let dup := {| b_id := "x"; b_history_id := "abc"; b_position := 1;
                b_total_words := 10; b_updated_at := "t0" |} in
  length (bookmarks_for "abc" (saveBookmark [dup; dup] "abc" 7 10 "y" "t1"))
  = 2.
Proof. reflexivity. Qed.

(** *** History *)










End GuestStorageSpec.


(** ** PDF upload *)

Module UploadSpec.
Import Upload Scenario.

(** A trace that starts no read leads to no reader callback. *)
Lemma after_reads_toast result response title description destructive :
  after_reads result response [Toast title description destructive] = [].
Proof. reflexivity. Qed.

(** C8.  A file of more than 10 * 1024 * 1024 bytes is answered with the
    size-limit error alone: no read is started, the reader callback never
    runs, and the whole upload contains no request to the extraction
    function. *)
Theorem oversized_file_rejected (file : File) (result : string)
    (response : Response) :
  (10 * 1024 * 1024 < f_size file)%N ->
  handleFileUpload (Some file)
  = [Toast "Error" "File size must be less than 10MB" true]
  /\ upload (Some file) result response
     = [Toast "Error" "File size must be less than 10MB" true]
  /\ requests (upload (Some file) result response) = [].
Proof.
  intros H.
  assert (E : handleFileUpload (Some file)
              = [Toast "Error" "File size must be less than 10MB" true]).
  { unfold handleFileUpload.
    destruct (N.ltb_spec (10 * 1024 * 1024) (f_size file)); [done | lia]. }
  unfold upload. rewrite E. by rewrite after_reads_toast.
Qed.

(** An 11 MB PDF. *)
Lemma oversized_file_rejected_witness :
  (10 * 1024 * 1024 < f_size big_pdf)%N
  /\ requests (upload (Some big_pdf) "data:application/pdf;base64,JVBERi0="
                 (Data "text"))
     = [].
Proof.
  assert (H : (10 * 1024 * 1024 < f_size big_pdf)%N) by (vm_compute; done).
  split; [exact H|].
  apply (oversized_file_rejected big_pdf
           "data:application/pdf;base64,JVBERi0=" (Data "text") H).
Defined.

(** A PDF of exactly 10 * 1024 * 1024 bytes passes the guard and is sent. *)
Example full_pdf_is_sent :
  requests (upload (Some full_pdf) "data:application/pdf;base64,JVBERi0="
              (Data "text"))
  = [Invoke "extract-pdf-content" (Some "JVBERi0=") "full.pdf"].
Proof. reflexivity. Qed.

(** A file of another type is rejected after the size check, also without
    a request. *)
Lemma wrong_type_rejected (file : File) (result : string)
    (response : Response) :
  (f_size file <= 10 * 1024 * 1024)%N ->
  f_type file <> "application/pdf" ->
  upload (Some file) result response
  = [Toast "Error" "Only PDF files are supported" true].
Proof.
  intros Hs Ht. unfold upload, handleFileUpload.
  destruct (N.ltb_spec (10 * 1024 * 1024) (f_size file)); [lia|].
  apply String.eqb_neq in Ht. by rewrite Ht.
Qed.

End UploadSpec.


(** ** More about the tokenizer *)

Module TokenizerMore.
Import JS Tokenizer.

(** The units found from a scan state, empty pieces dropped. *)
Lemma split_go_app_ws a : forall flag piece c rest,
  (flag = true -> piece = []) ->
  is_ws c = true ->
  List.filter nonempty (split_go flag piece (a ++ c :: rest))
  = List.filter nonempty (split_go flag piece a)
    ++ List.filter nonempty (split_go true [] rest).
Proof.
  induction a as [|x a IH]; intros flag piece c rest Hflag Hc.
  - simpl. rewrite Hc. destruct flag.
    + by rewrite (Hflag eq_refl).
    + simpl. by destruct (nonempty piece).
  - simpl. destruct (is_ws x).
    + destruct flag.
      * by apply IH.
      * simpl. rewrite (IH true [] c rest) by done.
        by destruct (nonempty piece).
    + apply IH; [discriminate | done].
Qed.

(** X1.  Tokenizing two texts put together with a whitespace character in
    between gives the units of the first followed by the units of the
    second. *)
Theorem words_app_ws (a b : jsstring) (c : N) :
  is_ws c = true ->
  words (a ++ c :: b) = words a ++ words b.
Proof.
  intros Hc. unfold words, split_ws.
  rewrite split_go_app_ws by done.
  by rewrite TokenizerSpec.filter_split_go_in_sep.
Qed.

(** Two sentences separated by a line feed. *)
Lemma words_app_ws_witness :
  is_ws 0x0A%N = true
  /\ words (lit "The quick" ++ 0x0A%N :: lit " brown fox")
     = [lit "The"; lit "quick"; lit "brown"; lit "fox"].
Proof.
  assert (H : is_ws 0x0A%N = true) by reflexivity.
  split; [exact H|].
  rewrite (words_app_ws (lit "The quick") (lit " brown fox") 0x0A%N H).
  reflexivity.
Defined.

(** A text without units has no character that is not whitespace. *)
Lemma words_nil_ws_only content :
  words content = [] -> forallb is_ws content = true.
Proof.
  intros H. pose proof (TokenizerSpec.words_concat content) as Hc.
  rewrite H in Hc. simpl in Hc. clear H.
  induction content as [|c r IH]; [done|]. simpl in *.
  destruct (is_ws c); simpl in *; [by apply IH | discriminate].
Qed.

(** A text of whitespace only has no unit. *)
Lemma ws_only_words_nil content :
  forallb is_ws content = true -> words content = [].
Proof.
  intros H.
  assert (Hf : List.filter (fun c => negb (is_ws c)) content = []).
  { induction content as [|c r IH]; [done|]. simpl in *.
    apply andb_prop in H as [-> Hr]. simpl. by apply IH. }
  pose proof (TokenizerSpec.words_concat content) as Hc.
  rewrite Hf in Hc.
  pose proof (TokenizerSpec.words_unit_ok content) as Hok.
  destruct (words content) as [|w l]; [done|].
  inversion Hok as [|? ? [Hne _] _]; subst.
  simpl in Hc. apply app_eq_nil in Hc as [-> _]. done.
Qed.

(** X2.  A text has no unit exactly when it consists of whitespace only;
    the empty text is one such. *)
Theorem words_nil_iff (content : jsstring) :
  words content = [] <-> forallb is_ws content = true.
Proof.
  split; [apply words_nil_ws_only | apply ws_only_words_nil].
Qed.

(** The pieces of a scan lie inside the text scanned: the piece under
    construction counts as the text just before the rest. *)
Lemma split_go_infix s :
  (forall piece w,
     In w (split_go false piece s) ->
     exists pre post, piece ++ s = pre ++ w ++ post)
  /\ (forall w,
        In w (split_go true [] s) -> exists pre post, s = pre ++ w ++ post).
Proof.
  induction s as [|c r [IHf IHt]]; split.
  - intros piece w [<- | []]. exists [], []. by rewrite !app_nil_r.
  - intros w [<- | []]. by exists [], [].
  - intros piece w Hw. simpl in Hw. destruct (is_ws c).
    + destruct Hw as [<- | Hw].
      * by exists [], (c :: r).
      * destruct (IHt w Hw) as (pre & post & ->).
        exists (piece ++ c :: pre), post. by rewrite <- app_assoc.
    + destruct (IHf (piece ++ [c]) w Hw) as (pre & post & E).
      exists pre, post. rewrite <- E. by rewrite <- app_assoc.
  - intros w Hw. simpl in Hw. destruct (is_ws c).
    + destruct (IHt w Hw) as (pre & post & ->). by exists (c :: pre), post.
    + destruct (IHf [c] w Hw) as (pre & post & E). by exists pre, post.
Qed.

(** X3.  Every unit is a contiguous piece of the text. *)
Theorem words_infix (content w : jsstring) :
  In w (words content) -> exists pre post, content = pre ++ w ++ post.
Proof.
  intros H. unfold words in H. apply filter_In in H as [H _].
  by apply (proj1 (split_go_infix content) [] w).
Qed.

(** A unit of "The quick brown fox" with what surrounds it. *)
Lemma words_infix_witness :
  In (lit "quick") (words (lit "The quick brown fox"))
  /\ exists pre post, lit "The quick brown fox" = pre ++ lit "quick" ++ post.
Proof.
  assert (H : In (lit "quick") (words (lit "The quick brown fox")))
    by (right; left; reflexivity).
  split; [exact H|].
  exact (words_infix (lit "The quick brown fox") (lit "quick") H).
Defined.

End TokenizerMore.


(** ** The tokenizer against its contract *)

Module TokenizerRefinement.
Import JS Tokenizer.

Lemma blank_cons c s : blank (c :: s) <-> is_ws c = true /\ blank s.
Proof. unfold blank. simpl. apply andb_true_iff. Qed.

(** Leading whitespace does not show in the units. *)
Lemma words_blank_lead lead : forall s,
  blank lead -> words (lead ++ s) = words s.
Proof.
  induction lead as [|c lead IH]; intros s H; [done|].
  apply blank_cons in H as [Hc H]. rewrite <- (IH s H).
  unfold words, split_ws. simpl. rewrite Hc. simpl.
  apply TokenizerSpec.filter_split_go_in_sep.
Qed.

(** A unit alone is its own tokenization. *)
Lemma words_unit w : unit_ok w -> words w = [w].
Proof.
  intros H. apply (TokenizerSpec.words_join_space [w]). by constructor.
Qed.

(** A unit followed by whitespace is the first unit of the text. *)
Lemma words_unit_ws w c s :
  unit_ok w -> is_ws c = true -> words (w ++ c :: s) = w :: words s.
Proof.
  intros Hw Hc. unfold words at 1. unfold split_ws.
  rewrite TokenizerMore.split_go_app_ws by done.
  rewrite TokenizerSpec.filter_split_go_in_sep.
  change (words w ++ words s = w :: words s). by rewrite words_unit.
Qed.

(** The tokenizer returns what the contract describes. *)
Lemma spec_units_words s l : spec_units s l -> words s = l.
Proof.
  induction 1 as [s Hs | lead w Hlead Hw | lead w c s l Hlead Hw Hc _ IH].
  - by apply TokenizerMore.ws_only_words_nil.
  - rewrite words_blank_lead by done. by apply words_unit.
  - rewrite words_blank_lead by done. rewrite words_unit_ws by done.
    by rewrite IH.
Qed.

Lemma unit_ok_single c : is_ws c = false -> unit_ok [c].
Proof. intros H. split; [done | by repeat constructor]. Qed.

Lemma unit_ok_cons c w : is_ws c = false -> unit_ok w -> unit_ok (c :: w).
Proof. intros H [_ Hw]. split; [done | by constructor]. Qed.

(** Every text is split in the way of the contract. *)
Lemma spec_units_total s : exists l, spec_units s l.
Proof.
  induction s as [|c s [l D]].
  - exists []. by constructor.
  - destruct (is_ws c) eqn:Hc.
    + destruct D as [s Hs | lead w Hlead Hw | lead w c0 s0 l0 Hlead Hw Hc0 D0].
      * exists []. constructor. by apply blank_cons.
      * exists [w]. apply (spec_units_last (c :: lead) w); [|done].
        by apply blank_cons.
      * exists (w :: l0).
        apply (spec_units_more (c :: lead) w c0 s0 l0); try done.
        by apply blank_cons.
    + destruct D as [s Hs | lead w Hlead Hw | lead w c0 s0 l0 Hlead Hw Hc0 D0].
      * exists [[c]]. destruct s as [|c' s'].
        -- apply (spec_units_last [] [c]); [done | by apply unit_ok_single].
        -- apply blank_cons in Hs as [Hc' Hs'].
           apply (spec_units_more [] [c] c' s' []); try done.
           ++ by apply unit_ok_single.
           ++ by constructor.
      * destruct lead as [|c' lead'].
        -- exists [c :: w].
           apply (spec_units_last [] (c :: w)); [done|].
           by apply unit_ok_cons.
        -- apply blank_cons in Hlead as [Hc' Hlead'].
           exists [[c]; w].
           apply (spec_units_more [] [c] c' (lead' ++ w) [w]); try done.
           ++ by apply unit_ok_single.
           ++ by constructor.
      * destruct lead as [|c' lead'].
        -- exists ((c :: w) :: l0).
           apply (spec_units_more [] (c :: w) c0 s0 l0); try done.
           by apply unit_ok_cons.
        -- apply blank_cons in Hlead as [Hc' Hlead'].
           exists ([c] :: w :: l0).
           apply (spec_units_more [] [c] c' (lead' ++ w ++ c0 :: s0) (w :: l0));
             try done.
           ++ by apply unit_ok_single.
           ++ by constructor.
Qed.

(** C3.  For every text the tokenizer returns exactly the sequence the
    contract describes, the non-empty whitespace-free pieces that runs of
    whitespace separate, and no other sequence fits that description.  Its
    units are non-empty and contain no whitespace; put together they are
    the text without its whitespace; the empty text has no unit; and
    tokenizing the units joined by single spaces returns the same
    sequence of units. *)
Theorem words_canonical (content : jsstring) :
  (forall l, spec_units content l <-> l = words content)
  /\ Forall unit_ok (words content)
  /\ concat (words content)
     = List.filter (fun c => negb (is_ws c)) content
  /\ words [] = []
  /\ words (join_space (words content)) = words content.
Proof.
  split.
  { intros l. split.
    - intros H. symmetry. by apply spec_units_words.
    - intros ->. destruct (spec_units_total content) as [l' H].
      by rewrite (spec_units_words _ _ H). }
  split; [apply TokenizerSpec.words_unit_ok|].
  split; [apply TokenizerSpec.words_concat|].
  split; [reflexivity|].
  apply TokenizerSpec.words_join_space, TokenizerSpec.words_unit_ok.
Qed.

(** "The quick brown fox" is split as the contract says, and a sequence
    that does not split it is not what the contract describes. *)
Lemma words_canonical_witness :
  spec_units (lit "The quick brown fox")
    [lit "The"; lit "quick"; lit "brown"; lit "fox"]
  /\ ~ spec_units (lit "The quick brown fox") [lit "Thequickbrownfox"].
Proof.
  destruct (words_canonical (lit "The quick brown fox")) as [H _].
  split.
  - apply H. reflexivity.
  - intros D. apply H in D. discriminate D.
Defined.

End TokenizerRefinement.


(** ** More about the playback controller *)

Module PlayerMore.
Import JS Player Reader Scenario.

Section Facts.
Variable words : list jsstring.

Lemma init_consistent : consistent words init.
Proof.
  unfold consistent. simpl. split_and!; try done; try constructor; lia.
Qed.

Lemma init_built_while_idle : built_while_idle init.
Proof. split; constructor. Qed.

(** Every event keeps the controller consistent. *)
Lemma step_consistent st e :
  built_while_idle st -> consistent words st ->
  consistent words (step words st e).
Proof.
  intros Hb Hc.
  pose proof Hc as (Hi & Hlen & Hidle & Hcur & Hq & Hl).
  destruct e; simpl.
  - destruct (isPlaying st) eqn:Hp; [done|].
    specialize (Hidle eq_refl).
    destruct (Nat.le_gt_cases (length words) (currentWordIndex st)) as [H|H].
    + unfold play, handlePlay. rewrite PlayerSpec.speakWord_past_end by done.
      unfold consistent. simpl. rewrite Hidle in *. by split_and!.
    + rewrite PlayerSpec.play_within by done. unfold consistent. simpl.
      rewrite Hidle. simpl.
      assert (Hu : well_built words
                {| u_text := nth (currentWordIndex st) words [];
                   u_index := currentWordIndex st; u_render := render st |})
        by by split.
      split_and!; try done; try lia.
      * by repeat constructor.
      * by repeat constructor.
      * apply Forall_app. split; [done|]. by repeat constructor.
  - destruct (isPlaying st); [|done].
    unfold consistent. simpl. split_and!; try done; try constructor; lia.
  - unfold consistent. simpl. split_and!; try done; try constructor; lia.
  - unfold utterance_end. destruct (synthQueue st) as [|u q] eqn:Eq; [done|].
    destruct Hb as [Hbq _]. rewrite Eq in Hbq.
    inversion Hbq as [|? ? Hu _]; subst.
    inversion Hq as [|? ? [Hui _] _]; subst.
    rewrite PlayerSpec.onend_not_playing by done.
    destruct q; [|simpl in Hlen; lia].
    unfold consistent. simpl. split_and!; try done; try constructor; lia.
  - unfold utterance_error.
    destruct (synthQueue st) as [|u q] eqn:Eq; [done|].
    destruct q; [|simpl in Hlen; lia].
    unfold consistent. simpl. split_and!; try done; try constructor; lia.
Qed.

Lemma run_consistent es : forall st,
  built_while_idle st -> consistent words st ->
  built_while_idle (run words es st) /\ consistent words (run words es st).
Proof.
  induction es as [|e es IH]; intros st Hb Hc; [done|].
  apply IH.
  - by apply PlayerSpec.step_built_while_idle.
  - by apply step_consistent.
Qed.

Lemma reachable_consistent es :
  built_while_idle (run words es init)
  /\ consistent words (run words es init).
Proof.
  apply run_consistent; [apply init_built_while_idle | apply init_consistent].
Qed.



(** X6.  Everything the controller ever hands to the engine is a unit of
    the text, spoken under its own index. *)
Theorem spoken_are_units (es : list Event) (u : Utterance) :
  In u (speakLog (run words es init)) ->
  u_index u < length words
  /\ nth_error words (u_index u) = Some (u_text u).
Proof.
  destruct (reachable_consistent es) as [_ (_ & _ & _ & _ & _ & Hl)].
  intros Hu. rewrite List.Forall_forall in Hl.
  destruct (Hl u Hu) as [Hi Ht]. split; [done|].
  rewrite Ht. by apply nth_error_nth'.
Qed.

(** One click on Play and the completion of the unit, from a state that
    shows the Play button with nothing in flight. *)
Lemma one_round st :
  isPlaying st = false -> synthQueue st = [] ->
  currentWordIndex st < length words ->
  run words [Play; End] st
  = let u := {| u_text := nth (currentWordIndex st) words [];
                u_index := currentWordIndex st; u_render := render st |} in
    {| isPlaying := false; currentWordIndex := currentWordIndex st + 1;
       synthQueue := []; utteranceRef := Some u;
       speakLog := speakLog st ++ [u] |}.
Proof.
  intros Hp Hq Hi. unfold run. simpl. rewrite Hp.
  rewrite PlayerSpec.play_within by done. simpl.
  unfold utterance_end. simpl. rewrite Hq. simpl.
  rewrite PlayerSpec.onend_not_playing by (simpl; done). reflexivity.
Qed.

(** X7.  One click on Play per unit reads the text in order: from a state
    with the Play button on screen and nothing in flight, [n] rounds of Play
    and completion that fit in the text speak the next [n] units, one after
    the other, and leave the index [n] further, not playing. *)
Theorem rounds_read_in_order (n : nat) : forall st : State,
  isPlaying st = false -> synthQueue st = [] ->
  currentWordIndex st + n <= length words ->
  isPlaying (run words (rounds n) st) = false
  /\ currentWordIndex (run words (rounds n) st) = currentWordIndex st + n
  /\ synthQueue (run words (rounds n) st) = []
  /\ map u_text (speakLog (run words (rounds n) st))
     = map u_text (speakLog st) ++ take n (drop (currentWordIndex st) words).
Proof.
  induction n as [|n IH]; intros st Hp Hq Hi.
  - simpl. rewrite app_nil_r. split_and!; try done; lia.
  - change (run words (rounds (S n)) st)
      with (run words (rounds n) (run words [Play; End] st)).
    rewrite one_round by (done || lia).
    cbv zeta.
    match goal with |- context [run words (rounds n) ?s] =>
      destruct (IH s) as (H1 & H2 & H3 & H4); [done | done | simpl; lia |]
    end.
    rewrite H1, H2, H3, H4. simpl.
    split_and!; try done; try lia.
    rewrite map_app. simpl. rewrite <- app_assoc. simpl. f_equal.
    destruct (lookup_lt_is_Some_2 words (currentWordIndex st) ltac:(lia))
      as [x Hx].
    rewrite (drop_S _ _ _ Hx). simpl.
    rewrite nth_lookup, Hx. simpl.
    by rewrite Nat.add_1_r.
Qed.

(** X8.  Pause and Play again speak the interrupted unit again from its
    start: after Play, Pause, Play the unit at the unchanged index has been
    handed to the engine twice and is in flight once. *)
Theorem resume_speaks_again (st : State) :
  isPlaying st = false -> synthQueue st = [] ->
  currentWordIndex st < length words ->
  isPlaying (run words [Play; Pause; Play] st) = true
  /\ currentWordIndex (run words [Play; Pause; Play] st) = currentWordIndex st
  /\ exists u,
       u_index u = currentWordIndex st
       /\ nth_error words (currentWordIndex st) = Some (u_text u)
       /\ synthQueue (run words [Play; Pause; Play] st) = [u]
       /\ speakLog (run words [Play; Pause; Play] st)
          = speakLog st ++ [u; u].
Proof.
  intros Hp Hq Hi. unfold run. simpl. rewrite Hp.
  rewrite PlayerSpec.play_within by done. simpl.
  unfold pause, handlePause. simpl.
  rewrite PlayerSpec.play_within by done. simpl.
  split; [done|]. split; [done|].
  eexists. split_and!; [ | | reflexivity | ].
  - reflexivity.
  - simpl. by apply nth_error_nth'.
  - unfold render. simpl. rewrite Hp. by rewrite <- app_assoc.
Qed.

(** X26.  Stop and then Play start again from the first unit: after any
    events from the initial state, Stop followed by Play on a text with
    units leaves the controller playing at index 0 with the first unit, and
    nothing else, in flight. *)
Theorem stop_play_restarts (es : list Event) :
  words <> [] ->
  isPlaying (run words (es ++ [Stop; Play]) init) = true
  /\ currentWordIndex (run words (es ++ [Stop; Play]) init) = 0
  /\ exists u,
       synthQueue (run words (es ++ [Stop; Play]) init) = [u]
       /\ u_index u = 0
       /\ head words = Some (u_text u).
Proof.
  intros Hne. unfold run. rewrite fold_left_app. simpl.
  fold (run words es init). set (st := run words es init).
  assert (Hlen : 0 < length words) by (destruct words; [done | simpl; lia]).
  rewrite PlayerSpec.play_within by (simpl; lia). simpl.
  split; [done|]. split; [done|].
  eexists. split; [reflexivity|]. split; [reflexivity|].
  simpl. destruct words; [done | reflexivity].
Qed.

(** X27.  After an error the controller still counts as playing, so the
    Pause button is the one on screen; Pause and then Play speak the failed
    unit again, at the unchanged index. *)
Theorem error_then_pause_play (st : State) :
  isPlaying st = false -> synthQueue st = [] ->
  currentWordIndex st < length words ->
  isPlaying (run words [Play; Error] st) = true
  /\ synthQueue (run words [Play; Error] st) = []
  /\ currentWordIndex (run words [Play; Error; Pause; Play] st)
     = currentWordIndex st
  /\ exists u,
       u_index u = currentWordIndex st
       /\ nth_error words (currentWordIndex st) = Some (u_text u)
       /\ synthQueue (run words [Play; Error; Pause; Play] st) = [u]
       /\ speakLog (run words [Play; Error; Pause; Play] st)
          = speakLog st ++ [u; u].
Proof.
  intros Hp Hq Hi. unfold run. simpl. rewrite Hp.
  rewrite PlayerSpec.play_within by done. simpl.
  unfold utterance_error. simpl. rewrite Hq. simpl.
  unfold pause, handlePause. simpl.
  rewrite PlayerSpec.play_within by done. simpl.
  split; [done|]. split; [done|]. split; [done|].
  eexists. split_and!; [ | | reflexivity | ].
  - reflexivity.
  - simpl. by apply nth_error_nth'.
  - unfold render. simpl. rewrite Hp. by rewrite <- app_assoc.
Qed.

End Facts.

(** X9.  A text of whitespace only is never spoken: no sequence of events
    moves the controller out of its initial state. *)
Theorem blank_text_stays_initial (content : jsstring) (es : list Event) :
  forallb is_ws content = true ->
  run (Tokenizer.words content) es init = init.
Proof.
  intros H. rewrite (TokenizerMore.ws_only_words_nil content H).
  induction es as [|e es IH]; [done|].
  change (run [] (e :: es) init) with (run [] es (step [] init e)).
  assert (Hstep : step [] init e = init) by by destruct e.
  by rewrite Hstep.
Qed.

(** The highlight test along the list, with the index counted from [k]. *)
Lemma highlighted_count_from (words : list jsstring) i : forall k,
  length
    (List.filter (fun b : bool => b)
       (imap (fun index _ => (k + index =? i)%nat) words))
  = if (k <=? i)%nat && (i <? k + length words)%nat then 1 else 0.
Proof.
  induction words as [|w l IH]; intros k.
  - simpl. rewrite Nat.add_0_r.
    destruct (Nat.leb_spec k i), (Nat.ltb_spec i k); simpl; lia.
  - rewrite imap_cons. cbn [List.filter].
    assert (E : imap ((fun index (_ : jsstring) => (k + index =? i)%nat) ∘ S) l
                = imap (fun index _ => (S k + index =? i)%nat) l).
    { apply imap_ext. intros j x _.
      change ((k + S j =? i)%nat = (S k + j =? i)%nat).
      by rewrite Nat.add_succ_r. }
    rewrite E. rewrite Nat.add_0_r.
    pose proof (IH (S k)) as IHk.
    destruct (Nat.eqb_spec k i) as [-> | Hne]; cbn [length]; rewrite IHk.
    + destruct (Nat.leb_spec (S i) i); [lia|]. simpl.
      destruct (Nat.leb_spec i i); [|lia].
      destruct (Nat.ltb_spec i (i + S (length l))); [done | lia].
    + destruct (Nat.leb_spec (S k) i), (Nat.leb_spec k i),
        (Nat.ltb_spec i (S k + length l)),
        (Nat.ltb_spec i (k + S (length l))); simpl; lia.
Qed.

(** X10.  Exactly one word is highlighted, the one at the index, as long
    as the index lies within the text; at the end of the text, and in a
    text without units, none is. *)
Theorem highlighted_one (words : list jsstring) (i : nat) :
  length (List.filter (fun b : bool => b) (highlighted words i))
  = (if (i <? length words)%nat then 1 else 0)
  /\ forall j, highlighted words i !! j = Some true <-> j = i /\ i < length words.
Proof.
  split.
  - unfold highlighted. exact (highlighted_count_from words i 0).
  - intros j. unfold highlighted. rewrite list_lookup_imap.
    destruct (words !! j) eqn:E; simpl.
    + apply lookup_lt_Some in E. split.
      * intros [= H]. apply Nat.eqb_eq in H. subst. done.
      * intros [-> _]. by rewrite Nat.eqb_refl.
    + apply lookup_ge_None in E. split; [done|]. intros [-> ?]. lia.
Qed.

(** The whole of "The quick brown fox", read in four rounds. *)
Lemma rounds_read_in_order_witness :
  isPlaying init = false /\ synthQueue init = []
  /\ currentWordIndex init + 4 <= length fox
  /\ map u_text (speakLog (run fox (rounds 4) init)) = fox
  /\ Finished fox (run fox (rounds 4) init).
Proof.
  assert (Hi : currentWordIndex init + 4 <= length fox) by (vm_compute; lia).
  destruct (rounds_read_in_order fox 4 init eq_refl eq_refl Hi)
    as (Hp & Hn & _ & Hlog).
  split; [reflexivity|]. split; [reflexivity|]. split; [exact Hi|].
  split; [rewrite Hlog; reflexivity|].
  split; [exact Hp | rewrite Hn; reflexivity].
Defined.

(** "The", interrupted and resumed. *)
Lemma resume_speaks_again_witness :
  isPlaying init = false /\ synthQueue init = []
  /\ currentWordIndex init < length fox
  /\ map u_text (speakLog (run fox [Play; Pause; Play] init))
     = [lit "The"; lit "The"].
Proof.
  assert (Hi : currentWordIndex init < length fox) by (vm_compute; lia).
  destruct (resume_speaks_again fox init eq_refl eq_refl Hi)
    as (_ & _ & u & _ & Hu & _ & Hlog).
  split; [reflexivity|]. split; [reflexivity|]. split; [exact Hi|].
  rewrite Hlog. simpl. simpl in Hu. by injection Hu as <-.
Defined.

(** A text of a space, a tab and a line feed. *)
Lemma blank_text_stays_initial_witness :
  forallb is_ws [0x20; 0x09; 0x0A]%N = true
  /\ run (Tokenizer.words [0x20; 0x09; 0x0A]%N) [Play; End; Play; Stop] init
     = init.
Proof.
  assert (H : forallb is_ws [0x20; 0x09; 0x0A]%N = true) by reflexivity.
  split; [exact H|].
  exact (blank_text_stays_initial _ [Play; End; Play; Stop] H).
Defined.

(** The utterance of "quick" in the second round. *)
Lemma spoken_are_units_witness :
  In {| u_text := lit "quick"; u_index := 1;
        u_render := {| r_isPlaying := false; r_currentWordIndex := 1 |} |}
    (speakLog (run fox (rounds 2) init))
  /\ nth_error fox 1 = Some (lit "quick").
Proof.
  assert (H : In {| u_text := lit "quick"; u_index := 1;
                    u_render := {| r_isPlaying := false;
                                   r_currentWordIndex := 1 |} |}
                (speakLog (run fox (rounds 2) init)))
    by (right; left; reflexivity).
  split; [exact H|].
  exact (proj2 (spoken_are_units fox (rounds 2) _ H)).
Defined.

(** Stop and Play in the middle of "The quick brown fox". *)
Lemma stop_play_restarts_witness :
  fox <> []
  /\ map u_text (synthQueue (run fox ([Play; End; Play] ++ [Stop; Play]) init))
     = [lit "The"].
Proof.
  assert (H : fox <> []) by discriminate.
  split; [exact H|].
  destruct (stop_play_restarts fox [Play; End; Play] H)
    as (_ & _ & u & -> & _ & Hu).
  simpl in *. by injection Hu as <-.
Defined.

(** An error on "The", then Pause and Play. *)
Lemma error_then_pause_play_witness :
  isPlaying init = false /\ synthQueue init = []
  /\ currentWordIndex init < length fox
  /\ map u_text (speakLog (run fox [Play; Error; Pause; Play] init))
     = [lit "The"; lit "The"].
Proof.
  assert (Hi : currentWordIndex init < length fox) by (vm_compute; lia).
  destruct (error_then_pause_play fox init eq_refl eq_refl Hi)
    as (_ & _ & _ & u & _ & Hu & _ & Hlog).
  split; [reflexivity|]. split; [reflexivity|]. split; [exact Hi|].
  rewrite Hlog. simpl. simpl in Hu. by injection Hu as <-.
Defined.

End PlayerMore.


(** ** Voices *)

Module VoicesSpec.
Import JS Reader Scenario2.

Lemma starts_with_spec needle : forall s,
  starts_with needle s = true <-> exists post, s = needle ++ post.
Proof.
  induction needle as [|a n IH]; intros s; simpl.
  - split; [by exists s | done].
  - destruct s as [|b s]; simpl.
    + split; [done | by intros [post H]].
    + rewrite andb_true_iff, N.eqb_eq, IH. split.
      * intros [-> [post ->]]. by exists post.
      * intros [post [= -> ->]]. split; [done | by exists post].
Qed.

(** The model of [includes] finds exactly the occurrences of the needle. *)
Lemma includes_spec needle s :
  includes s needle = true <-> exists pre post, s = pre ++ needle ++ post.
Proof.
  induction s as [|b s IH]; simpl; rewrite orb_true_iff, starts_with_spec.
  - split.
    + intros [[post H] | H]; [|done]. by exists [], post.
    + intros (pre & post & H). left.
      destruct pre; [by exists post|done].
  - rewrite IH. split.
    + intros [[post H] | (pre & post & ->)].
      * by exists [], post.
      * by exists (b :: pre), post.
    + intros (pre & post & H). destruct pre as [|b' pre].
      * left. by exists post.
      * right. injection H as -> ->. by exists pre, post.
Qed.

Lemma find_existsb_none {A} (f : A -> bool) l :
  existsb f l = false -> List.find f l = None.
Proof.
  induction l as [|x l IH]; [done|]. simpl.
  destruct (f x); [done | exact IH].
Qed.

Lemma find_existsb_some {A} (f : A -> bool) l :
  existsb f l = true -> exists x, List.find f l = Some x.
Proof.
  induction l as [|x l IH]; [done|]. simpl.
  destruct (f x); [by exists x | exact IH].
Qed.

(** X11.  The default voice is undefined only for an empty voice list.
    Otherwise it is a voice of the list: one whose name contains "Female"
    or "Samantha" if the list has any, wherever it stands; failing that one
    whose name contains "Male" or "Daniel" if the list has any; and failing
    both the first voice of the list. *)
Theorem defaultVoice_choice (availableVoices : list Voice) :
  (defaultVoice availableVoices = None <-> availableVoices = [])
  /\ forall v,
       defaultVoice availableVoices = Some v ->
       In v availableVoices
       /\ (existsb is_female availableVoices = true -> is_female v = true)
       /\ (existsb is_female availableVoices = false ->
           existsb is_male availableVoices = true -> is_male v = true)
       /\ (existsb is_female availableVoices = false ->
           existsb is_male availableVoices = false ->
           head availableVoices = Some v).
Proof.
  unfold defaultVoice. split.
  - split.
    + destruct (List.find is_female availableVoices); [done|].
      destruct (List.find is_male availableVoices); [done|].
      by destruct availableVoices.
    + by intros ->.
  - intros v Hv.
    destruct (List.find is_female availableVoices) as [f|] eqn:Ef.
    + injection Hv as ->. apply find_some in Ef as [Hin Hf].
      split; [done|]. split; [done|].
      assert (He : existsb is_female availableVoices = true)
        by (apply existsb_exists; eauto).
      split; intros H; congruence.
    + assert (He : existsb is_female availableVoices = false).
      { destruct (existsb is_female availableVoices) eqn:E; [|done].
        apply find_existsb_some in E as [x Hx]. congruence. }
      destruct (List.find is_male availableVoices) as [m|] eqn:Em.
      * injection Hv as ->. apply find_some in Em as [Hin Hm].
        split; [done|]. split; [congruence|]. split; [done|].
        assert (He' : existsb is_male availableVoices = true)
          by (apply existsb_exists; eauto).
        intros _ H. congruence.
      * split.
        { destruct availableVoices; [done|]. injection Hv as ->. by left. }
        split; [congruence|]. split; [|done].
        intros _ H. apply find_existsb_some in H as [x Hx]. congruence.
Qed.

(** A list that reports a "Daniel" before its female voices. *)
Lemma defaultVoice_choice_witness :
  defaultVoice some_voices = Some (voice "Google UK English Female")
  /\ existsb is_female some_voices = true
  /\ is_female (voice "Google UK English Female") = true.
Proof.
  assert (Hd : defaultVoice some_voices
               = Some (voice "Google UK English Female")) by reflexivity.
  assert (He : existsb is_female some_voices = true) by reflexivity.
  destruct (defaultVoice_choice some_voices) as [_ H].
  destruct (H _ Hd) as (_ & Hf & _).
  split; [exact Hd|]. split; [exact He | exact (Hf He)].
Defined.

(** X12.  Choosing a name in the select gives a voice of the list that
    carries this name, the first one if several do, and clears the voice
    when no voice of the list carries it. *)
Theorem selectVoice_by_name (voices : list Voice) (name : jsstring) :
  match selectVoice voices name with
  | Some v =>
      v_name v = name
      /\ exists before after,
           voices = before ++ v :: after
           /\ Forall (fun v' => v_name v' <> name) before
  | None => Forall (fun v' => v_name v' <> name) voices
  end.
Proof.
  unfold selectVoice. induction voices as [|x l IH]; simpl; [constructor|].
  destruct (bool_decide_reflect (v_name x = name)) as [E | E].
  - split; [done|]. exists [], l. split; [done | constructor].
  - destruct (List.find _ l) as [v|].
    + destruct IH as (Hn & before & after & -> & Hb).
      split; [done|]. exists (x :: before), after.
      split; [done | by constructor].
    + by constructor.
Qed.

End VoicesSpec.


(** ** More about the guest storage *)

Module GuestStorageMore.
Import GuestStorage Scenario Scenario2.







(** The keys after a save: unchanged when the key is there, and the key
    appended when it is not. *)
Lemma saveBookmark_keys bs K pos tot uuid now :
  map b_history_id (saveBookmark bs K pos tot uuid now)
  = if existsb (has_key K) bs then map b_history_id bs
    else map b_history_id bs ++ [K].
Proof.
  induction bs as [|b bs IH].
  - by rewrite GuestStorageSpec.saveBookmark_nil.
  - rewrite GuestStorageSpec.saveBookmark_cons. simpl.
    destruct (has_key K b); simpl; [done|].
    rewrite IH. by destruct (existsb (has_key K) bs).
Qed.

Lemma existsb_has_key_false bs K :
  existsb (has_key K) bs = false -> ~ In K (map b_history_id bs).
Proof.
  intros H Hin. apply in_map_iff in Hin as (b & Hb & Hin).
  assert (Ht : existsb (has_key K) bs = true).
  { apply existsb_exists. exists b. split; [done|].
    by apply GuestStorageSpec.has_key_true. }
  congruence.
Qed.

Lemma saveBookmark_NoDup bs K pos tot uuid now :
  List.NoDup (map b_history_id bs) ->
  List.NoDup (map b_history_id (saveBookmark bs K pos tot uuid now)).
Proof.
  intros H. rewrite saveBookmark_keys.
  destruct (existsb (has_key K) bs) eqn:E; [done|].
  apply NoDup_ListNoDup, NoDup_app. apply NoDup_ListNoDup in H.
  split; [done|]. split.
  - intros x Hx Hin. apply list_elem_of_singleton in Hin as ->.
    apply (existsb_has_key_false bs K E). by apply list_elem_of_In.
  - apply NoDup_singleton.
Qed.

Lemma hook_run_NoDup es : forall h,
  List.NoDup (map b_history_id (guestBookmarks (stored h))) ->
  List.NoDup (map b_history_id (guestBookmarks (rendered h))) ->
  List.NoDup (map b_history_id (guestBookmarks (stored (hook_run es h))))
  /\ List.NoDup
       (map b_history_id (guestBookmarks (rendered (hook_run es h)))).
Proof.
  induction es as [|e es IH]; intros h Hs Hr; [done|].
  apply IH; destruct e as [[item uuid now | k pos tot uuid now] | ];
    simpl; try done.
  by apply saveBookmark_NoDup.
Qed.

(** X16.  Every list of bookmarks that the hook stores, from the empty
    store on and from whichever render its calls come, carries each key
    once; a save adds one bookmark to the list it reads when the key is new
    and none when it is not. *)
Theorem calls_keys_NoDup (es : list HookEvent) :
  List.NoDup
    (map b_history_id (guestBookmarks (stored (hook_run es (mount empty)))))
  /\ forall bs K pos tot uuid now,
       length (saveBookmark bs K pos tot uuid now)
       = length bs + (if existsb (has_key K) bs then 0 else 1).
Proof.
  split.
  - apply hook_run_NoDup; constructor.
  - intros bs K pos tot uuid now.
    rewrite <- !(length_map b_history_id). rewrite saveBookmark_keys.
    destruct (existsb (has_key K) _); [lia|].
    rewrite length_app. simpl. lia.
Qed.


End GuestStorageMore.


(** ** More about the inputs *)

Module InputsSpec.
Import Upload UploadView Scenario Scenario2.

Lemma append_cons c r s : String c r +:+ s = String c (r +:+ s).
Proof. reflexivity. Qed.

Lemma append_nil_r s : s +:+ "" = s.
Proof. induction s as [|c r IH]; [done|]. by rewrite append_cons, IH. Qed.

Lemma append_snoc piece c r : (piece +:+ String c "") +:+ r = piece +:+ String c r.
Proof.
  induction piece as [|a p IH]; [done|]. by rewrite !append_cons, IH.
Qed.

(** Up to the first comma the scan only extends the current piece. *)
Lemma split_comma_go_comma_free pre : forall piece s,
  comma_free pre = true ->
  split_comma_go piece (pre +:+ s) = split_comma_go (piece +:+ pre) s.
Proof.
  induction pre as [|c r IH]; intros piece s H.
  - by rewrite append_nil_r.
  - simpl in H. apply andb_prop in H as [Hc Hr].
    rewrite append_cons. simpl.
    destruct (Ascii.eqb c ","); [done|].
    rewrite IH by done. by rewrite append_snoc.
Qed.

Lemma split_comma_comma_free s :
  comma_free s = true -> split_comma s = [s].
Proof.
  intros H. unfold split_comma.
  rewrite <- (append_nil_r s) at 1.
  by rewrite split_comma_go_comma_free.
Qed.

(** X18.  The request for an accepted file carries the part of the data
    URL after its comma, the base64 text, when the URL has the one comma of
    a data URL; a result without a comma leaves the request without data. *)
Theorem payload_of_data_url (file : File) (response : Response)
    (pre payload : string) :
  comma_free pre = true -> comma_free payload = true ->
  head (reader_onload file (pre +:+ "," +:+ payload) response)
  = Some (Invoke "extract-pdf-content" (Some payload) (f_name file))
  /\ head (reader_onload file pre response)
     = Some (Invoke "extract-pdf-content" None (f_name file)).
Proof.
  intros Hpre Hpay. unfold reader_onload. simpl. split.
  - do 2 f_equal. unfold split_comma.
    rewrite split_comma_go_comma_free by done.
    rewrite append_cons. simpl.
    change (split_comma_go "" payload) with (split_comma payload).
    by rewrite split_comma_comma_free.
  - do 2 f_equal. by rewrite split_comma_comma_free.
Qed.

(** The data URL of a small PDF. *)
Lemma payload_of_data_url_witness :
  comma_free "data:application/pdf;base64" = true
  /\ comma_free "JVBERi0xLjQ=" = true
  /\ head (reader_onload small_pdf data_url (Data "text"))
     = Some (Invoke "extract-pdf-content" (Some "JVBERi0xLjQ=") "paper.pdf").
Proof.
  assert (H1 : comma_free "data:application/pdf;base64" = true)
    by reflexivity.
  assert (H2 : comma_free "JVBERi0xLjQ=" = true) by reflexivity.
  split; [exact H1|]. split; [exact H2|].
  exact (proj1 (payload_of_data_url small_pdf (Data "text") _ _ H1 H2)).
Defined.

(** X19.  An upload sends a request exactly when a file was chosen that
    passes both checks, size at most 10 * 1024 * 1024 bytes and type
    application/pdf; it then sends one request, under the file's name. *)
Theorem request_iff_accepted (file : File) (result : string)
    (response : Response) :
  requests (upload (Some file) result response)
  = (if accepted file
     then [Invoke "extract-pdf-content" (split_comma result !! 1)
             (f_name file)]
     else [])
  /\ requests (upload None result response) = [].
Proof.
  split; [|done]. unfold upload, handleFileUpload, accepted.
  rewrite N.leb_antisym.
  destruct (10 * 1024 * 1024 <? f_size file)%N; [done|].
  destruct (String.eqb (f_type file) "application/pdf"); [|done].
  simpl. by destruct response.
Qed.

(** X20.  For an accepted file the handler has set [loading] back to
    false before the request is sent: the flag covers the start of the read
    only, and is false after the upload, whatever the answer. *)
Theorem loading_false_at_request (file : File) (result : string)
    (response : Response) (loading : bool) :
  accepted file = true ->
  exists before after,
    upload (Some file) result response
    = before ++ Invoke "extract-pdf-content" (split_comma result !! 1)
                  (f_name file) :: after
    /\ loading_after before loading = false
    /\ loading_after (upload (Some file) result response) loading = false.
Proof.
  intros H. unfold accepted in H. apply andb_prop in H as [Hs Ht].
  unfold upload, handleFileUpload. rewrite N.leb_antisym in Hs.
  apply negb_true_iff in Hs. rewrite Hs, Ht. simpl.
  eexists [SetLoading true; ReadAsDataURL file; SetLoading false], _.
  split; [reflexivity|]. split; [reflexivity|]. by destruct response.
Qed.

Lemma loading_false_at_request_witness :
  accepted small_pdf = true
  /\ loading_after (upload (Some small_pdf) data_url (Data "text")) true
     = false.
Proof.
  assert (H : accepted small_pdf = true) by reflexivity.
  split; [exact H|].
  destruct (loading_false_at_request small_pdf data_url (Data "text") true H)
    as (before & after & _ & _ & Hend).
  exact Hend.
Defined.

(** X21.  A failed extraction of an accepted file shows nothing: the
    error is thrown inside the reader callback, outside the handler's
    [try], so no toast appears and no content is handed on. *)
Theorem failed_pdf_is_silent (file : File) (result message : string) :
  accepted file = true ->
  List.filter is_toast (upload (Some file) result (Failure message)) = []
  /\ List.filter is_content (upload (Some file) result (Failure message))
     = [].
Proof.
  intros H. unfold accepted in H. apply andb_prop in H as [Hs Ht].
  unfold upload, handleFileUpload. rewrite N.leb_antisym in Hs.
  apply negb_true_iff in Hs. by rewrite Hs, Ht.
Qed.

Lemma failed_pdf_is_silent_witness :
  accepted small_pdf = true
  /\ List.filter is_toast
       (upload (Some small_pdf) data_url (Failure "Internal error"))
     = [].
Proof.
  assert (H : accepted small_pdf = true) by reflexivity.
  split; [exact H|].
  exact (proj1 (failed_pdf_is_silent small_pdf data_url "Internal error" H)).
Defined.

(** X22.  The URL form with a non-empty URL sends one request for that
    URL, shows one toast, and ends with [loading] false, whatever the
    answer; the toast of a failure always has a text.  With an empty URL
    the form does nothing beyond [preventDefault]. *)
Theorem url_submit_outcomes (url : string) (response : UrlInput.Response)
    (loading : bool) :
  url <> "" ->
  List.filter UrlInput.is_request (UrlInput.handleUrlSubmit url response)
  = [UrlInput.Invoke "extract-web-content" url]
  /\ length
       (List.filter UrlInput.is_toast
          (UrlInput.handleUrlSubmit url response))
     = 1
  /\ UrlInput.loading_after (UrlInput.handleUrlSubmit url response) loading
     = false
  /\ (forall message, UrlInput.describe message <> "")
  /\ UrlInput.handleUrlSubmit "" response = [UrlInput.PreventDefault].
Proof.
  intros Hne. destruct url as [|c r]; [done|].
  split_and!; try by destruct response.
  intros [[|]|]; discriminate.
Qed.

Lemma url_submit_outcomes_witness :
  "https://example.com/article" <> ""
  /\ UrlInput.loading_after
       (UrlInput.handleUrlSubmit "https://example.com/article"
          (UrlInput.Failure None))
       true
     = false.
Proof.
  assert (H : "https://example.com/article" <> "") by discriminate.
  split; [exact H|].
  destruct (url_submit_outcomes "https://example.com/article"
              (UrlInput.Failure None) true H) as (_ & _ & Hl & _).
  exact Hl.
Defined.

End InputsSpec.

(** ** The page *)

Module PageSpec.
Import Page UploadView Scenario Scenario2.

(** X23.  From the landing page, an upload opens the reader exactly when
    the file is accepted and the extraction answers with a non-empty text;
    the reader then gets that text, the file's name as title, the type pdf
    and no source URL.  In every other case, an empty text included, the
    landing page stays. *)
Theorem view_after_upload (st : State) (file : Upload.File)
    (result : string) (response : Upload.Response) :
  content st = "" ->
  view (after_upload (Upload.upload (Some file) result response) st)
  = match response with
    | Upload.Data (String a r) =>
        if accepted file
        then TTSReader (String a r) (Upload.f_name file) Pdf None
        else Landing
    | _ => Landing
    end.
Proof.
  intros Hst.
  assert (Hv : view st = Landing) by (unfold view; by rewrite Hst).
  unfold Upload.upload, Upload.handleFileUpload, accepted.
  rewrite N.leb_antisym.
  destruct (10 * 1024 * 1024 <? Upload.f_size file)%N; simpl.
  { rewrite Hv. by destruct response as [[|]|]. }
  destruct (String.eqb (Upload.f_type file) "application/pdf"); simpl.
  - by destruct response as [[|]|].
  - rewrite Hv. by destruct response as [[|]|].
Qed.

Lemma view_after_upload_witness :
  content initial = ""
  /\ view (after_upload
             (Upload.upload (Some small_pdf) data_url (Upload.Data "text"))
             initial)
     = TTSReader "text" "paper.pdf" Pdf None.
Proof.
  assert (H : content initial = "") by reflexivity.
  split; [exact H|].
  exact (view_after_upload initial small_pdf data_url (Upload.Data "text") H).
Defined.

(** X24.  From the landing page, the URL form opens the reader exactly
    when the URL is non-empty and the extraction answers with a non-empty
    text; the reader then gets that text, the returned title, the type url
    and the URL typed.  In every other case the landing page stays. *)
Theorem view_after_url (st : State) (url : string)
    (response : UrlInput.Response) :
  content st = "" ->
  view (after_url (UrlInput.handleUrlSubmit url response) st)
  = match url, response with
    | String _ _, UrlInput.Data (String a r) t =>
        TTSReader (String a r) t Url (Some url)
    | _, _ => Landing
    end.
Proof.
  intros Hst.
  assert (Hv : view st = Landing) by (unfold view; by rewrite Hst).
  destruct url as [|c u]; simpl; [by destruct response as [[|] ?|]|].
  destruct response as [[|a r] t | m]; simpl; done.
Qed.

Lemma view_after_url_witness :
  content initial = ""
  /\ view (after_url
             (UrlInput.handleUrlSubmit "https://example.com/article"
                (UrlInput.Data "text" "Article"))
             initial)
     = TTSReader "text" "Article" Url (Some "https://example.com/article").
Proof.
  assert (H : content initial = "") by reflexivity.
  split; [exact H|].
  exact (view_after_url initial "https://example.com/article"
           (UrlInput.Data "text" "Article") H).
Defined.

(** X25.  Signing out always brings the landing page back, and the next
    document replaces all that the page held: a PDF read after an article
    opens without the article's URL. *)
Theorem sign_out_then_pdf (st : State) (file : Upload.File)
    (result : string) (a : ascii) (r : string) :
  accepted file = true ->
  view (handleSignOut st) = Landing
  /\ view (after_upload
             (Upload.upload (Some file) result (Upload.Data (String a r)))
             (handleSignOut st))
     = TTSReader (String a r) (Upload.f_name file) Pdf None.
Proof.
  intros H. split; [reflexivity|].
  unfold accepted in H. apply andb_prop in H as [Hs Ht].
  unfold Upload.upload, Upload.handleFileUpload. rewrite N.leb_antisym in Hs.
  apply negb_true_iff in Hs. by rewrite Hs, Ht.
Qed.

Lemma sign_out_then_pdf_witness :
  accepted small_pdf = true
  /\ view (after_upload
             (Upload.upload (Some small_pdf) data_url (Upload.Data "text"))
             (handleSignOut
                (handleContentExtracted "old" "Article" Url
                   (Some "https://example.com/article") initial)))
     = TTSReader "text" "paper.pdf" Pdf None.
Proof.
  assert (H : accepted small_pdf = true) by reflexivity.
  split; [exact H|].
  exact (proj2 (sign_out_then_pdf _ small_pdf data_url "t" "ext" H)).
Defined.

End PageSpec.
